(** * Branch comparison core: in-memory filesystem and tree diff

    A shallow embedding of the module that backs the client-side branch
    comparison: the [MemoryFS] class (a map of file contents and a set of
    directory paths), [loadFilesIntoFs], [listTreeFiles] and
    [generateDiff].

    Conventions of the embedding.
    - JavaScript strings are [string]s; a character stands for one code
      unit.  Byte arrays ([Uint8Array], [Buffer]) are [list byte].
    - [self.files] (a [Map]) is a [gmap string (list byte)] and
      [self.dirs] (a [Set]) a [gset string]: of the operations modelled
      here only [readdir] depends on their iteration order, for the order
      of the array it returns, which is left out.
    - The plain objects [fileMap], [baseFiles] and [compareFiles] are
      association lists of their own properties in insertion order.
      Reading a property also finds the members of [Object.prototype],
      assigning to [__proto__] stores nothing, and [Object.keys] lists
      the keys that are array indices first.
    - A path or a branch name is a value of [jsval]: [undefined], [null],
      a boolean, a string, or any other value given by its string
      conversion and its truth value.  [readFile], whose behaviour on
      every input is at stake, also takes the values for which
      [String(path)] throws; the other operations evaluate [String(path)]
      before they touch [files] or [dirs], so that on such a value they
      throw and change nothing, and they are modelled on [jsval].
    - An [async] function that may throw returns an [outcome]; calls to
      the repository reader are recorded in an event log so that "does not
      read" can be stated.
    - The repository reader ([window.git]), the text differencer ([diff])
      and the platform's UTF-8 codec are parameters. *)

From Stdlib Require Import String Ascii List Bool Strings.Byte Arith Lia.
From stdpp Require Import gmap strings list sorting.

Import ListNotations.
Local Open Scope string_scope.

(** ** JavaScript values that reach the module as a path or a branch name *)

(** The values [v] for which [String(v)] returns.  [JOther] stands for
    any value that is not [undefined], [null], a boolean or a string (a
    number, a symbol, an object with a string conversion), by what
    [String(v)] and [Boolean(v)] give for it. *)
Inductive jsval : Type :=
  | JUndefined
  | JNull
  | JBool (b : bool)
  | JStr (s : string)
  | JOther (string_form : string) (truth : bool).

(** [String(v)], for a value whose conversion returns; the values for
    which it throws are the [Unconvertible] arguments below. *)
Definition to_String (v : jsval) : string :=
  match v with
  | JUndefined => "undefined"
  | JNull => "null"
  | JBool true => "true"
  | JBool false => "false"
  | JStr s => s
  | JOther string_form _ => string_form
  end.

(** [v === undefined || v === null] *)
Definition is_nullish (v : jsval) : bool :=
  match v with
  | JUndefined | JNull => true
  | _ => false
  end.

(** The truth value of a string: only the empty string is falsy. *)
Definition truthy_string (s : string) : bool :=
  match s with
  | EmptyString => false
  | String _ _ => true
  end.

(** The truth value of [v], as [!v] and [v || w] see it. *)
Definition truthy (v : jsval) : bool :=
  match v with
  | JUndefined | JNull => false
  | JBool b => b
  | JStr s => truthy_string s
  | JOther _ truth => truth
  end.

(** ** String operations used on paths *)

Module Path.

Definition is_slash (c : ascii) : bool := Ascii.eqb c "/"%char.

(** [s.replace(/\/+/g, '/')]: every maximal run of slashes becomes one. *)
Fixpoint collapse_slashes (s : string) : string :=
  match s with
  | EmptyString => EmptyString
  | String c rest =>
      if is_slash c then
        match rest with
        | EmptyString => String "/" EmptyString
        | String c' _ =>
            if is_slash c' then collapse_slashes rest
            else String "/" (collapse_slashes rest)
        end
      else String c (collapse_slashes rest)
  end.

(** [s.replace(/\/+$/, '')]: the slashes that end the string are removed. *)
Fixpoint strip_trailing_slashes (s : string) : string :=
  match s with
  | EmptyString => EmptyString
  | String c rest =>
      let rest' := strip_trailing_slashes rest in
      if is_slash c && negb (truthy_string rest') then EmptyString
      else String c rest'
  end.

(** [s.replace(/\/+$/, '') || '/'] *)
Definition dir_path (s : string) : string :=
  let stripped := strip_trailing_slashes s in
  if truthy_string stripped then stripped else "/".

(** [s.split('/')] *)
Fixpoint split_slash (s : string) : list string :=
  match s with
  | EmptyString => [EmptyString]
  | String c rest =>
      if is_slash c then EmptyString :: split_slash rest
      else
        match split_slash rest with
        | [] => [String c EmptyString]
        | first :: others => String c first :: others
        end
  end.

(** [s.split('/').filter(Boolean)] *)
Definition segments (s : string) : list string :=
  List.filter truthy_string (split_slash s).

(** [s.startsWith(p)] *)
Fixpoint starts_with (p s : string) : bool :=
  match p, s with
  | EmptyString, _ => true
  | String a p', String b s' => Ascii.eqb a b && starts_with p' s'
  | String _ _, EmptyString => false
  end.

(** [s.substring(n)] for [0 <= n] *)
Fixpoint substring_from (n : nat) (s : string) : string :=
  match n, s with
  | O, _ => s
  | S n', String _ s' => substring_from n' s'
  | S _, EmptyString => EmptyString
  end.

(** Two slashes in a row somewhere in [s]. *)
Fixpoint has_double_slash (s : string) : bool :=
  match s with
  | EmptyString => false
  | String c rest =>
      match rest with
      | EmptyString => false
      | String c' _ => (is_slash c && is_slash c') || has_double_slash rest
      end
  end.

(** [s] ends with a slash. *)
Fixpoint ends_with_slash (s : string) : bool :=
  match s with
  | EmptyString => false
  | String c EmptyString => is_slash c
  | String _ rest => ends_with_slash rest
  end.

(** A slash somewhere in [s]. *)
Fixpoint has_slash (s : string) : bool :=
  match s with
  | EmptyString => false
  | String c rest => is_slash c || has_slash rest
  end.

(** ["/" + parts.join("/")], the absolute path with segments [parts]. *)
Fixpoint absolute (parts : list string) : string :=
  match parts with
  | [] => EmptyString
  | p :: rest => "/" ++ p ++ absolute rest
  end.

(** The directories above a path: for segments [s1 .. sn], the paths
    [/s1], [/s1/s2], ..., [/s1/../s(n-1)]. *)
Definition ancestors (s : string) : list string :=
  let parts := segments s in
  map (fun i => absolute (take i parts)) (seq 1 (length parts - 1)).

(** A path segment: not empty and free of slashes. *)
Definition segment (p : string) : Prop :=
  truthy_string p = true /\ has_slash p = false.

End Path.

(** ** The in-memory filesystem *)

(** The platform's UTF-8 codec: [new TextDecoder().decode] and
    [new TextEncoder().encode]. *)
Record TextCodec : Type := {
  utf8_decode : list byte -> string;
  utf8_encode : string -> list byte
}.

(** An [Error] with its [code] property, as the filesystem throws it. *)
Record fs_error : Type := {
  code : string;
  message : string
}.

Inductive outcome (E A : Type) : Type :=
  | Returns (a : A)
  | Throws (e : E).
Arguments Returns {E A} a.
Arguments Throws {E A} & e.

(** What a call can throw: an error of the filesystem, or any other
    error, given by its name and message (a [TypeError] of the language,
    an error thrown by the [toString] of an object). *)
Inductive js_error : Type :=
  | FsError (e : fs_error)
  | OtherError (name message : string).

Coercion FsError : fs_error >-> js_error.

(** Any argument of a call: a value whose string conversion returns, or
    a value for which [String(v)] throws [thrown], as it does, with a
    [TypeError], for [Object.create(null)]. *)
Inductive js_arg : Type :=
  | Value (v : jsval)
  | Unconvertible (thrown : js_error).

Coercion Value : jsval >-> js_arg.

(** [String(v)] for any argument *)
Definition String_of (v : js_arg) : outcome js_error string :=
  match v with
  | Value v => Returns (to_String v)
  | Unconvertible thrown => Throws thrown
  end.

(** What [readFile] resolves to: a [Buffer], or text when
    [opts.encoding === 'utf8']. *)
Inductive file_content : Type :=
  | AsBuffer (bytes : list byte)
  | AsText (text : string).

(** The [data] argument of [writeFile]. *)
Inductive write_data : Type :=
  | DataString (s : string)
  | DataBytes (bytes : list byte).

(** What [stat] resolves to.  The time stamps [mtimeMs] and [ctimeMs]
    ([Date.now()]) and the constant [ino] are left out; [isDirectory()]
    and [isFile()] are read off [stat_type]. *)
Inductive file_type : Type := TypeDir | TypeFile.

Record Stats : Type := {
  stat_type : file_type;
  stat_mode : N;
  stat_size : nat
}.

Module MemoryFS.

Record t : Type := {
  files : gmap string (list byte);
  dirs : gset string
}.

(** [constructor()] *)
Definition create : t := {| files := ∅; dirs := {["/"]} |}.

(** [clear()] *)
Definition clear (self : t) : t := {| files := ∅; dirs := {["/"]} ∪ ∅ |}.

(** The loop of [_addParentDirs]: [current] grows by one segment per
    iteration and the last segment is left out ([i < parts.length - 1]). *)
Fixpoint addParentDirs_loop (current : string) (parts : list string)
    (ds : gset string) : gset string :=
  match parts with
  | [] => ds
  | [_] => ds
  | p :: rest =>
      let current' := current ++ "/" ++ p in
      addParentDirs_loop current' rest ({[current']} ∪ ds)
  end.

(** [_addParentDirs(filePath)] *)
Definition _addParentDirs (self : t) (filePath : string) : t :=
  {| files := files self;
     dirs := addParentDirs_loop "" (Path.segments filePath) (dirs self) |}.

Definition enoent (msg : string) : fs_error :=
  {| code := "ENOENT"; message := msg |}.

Section Promises.

Context (codec : TextCodec).

(** [path === undefined || path === null], for any argument: a value
    whose conversion throws is an object. *)
Definition arg_is_nullish (path : js_arg) : bool :=
  match path with
  | Value v => is_nullish v
  | Unconvertible _ => false
  end.

(** [promises.readFile(path, opts)], for any argument [path]; [encoding]
    is [opts?.encoding].  [String(path)] is evaluated after the test for
    [undefined] and [null] and outside any [try]: what it throws, the
    call throws. *)
Definition readFile (self : t) (path : js_arg) (encoding : option string)
    : outcome js_error file_content :=
  if arg_is_nullish path then Throws (enoent "ENOENT: path is undefined")
  else
    match String_of path with
    | Throws thrown => Throws thrown
    | Returns string_path =>
        let normalizedPath := Path.collapse_slashes string_path in
        match files self !! normalizedPath with
        | None =>
            Throws (enoent ("ENOENT: no such file or directory, open '"
                            ++ normalizedPath ++ "'"))
        | Some data =>
            if bool_decide (encoding = Some "utf8")
            then Returns (AsText (utf8_decode codec data))
            else Returns (AsBuffer data)
        end
    end.

(** [promises.writeFile(path, data)] *)
Definition writeFile (self : t) (path : jsval) (data : write_data) : t :=
  if is_nullish path then self
  else
    let normalizedPath := Path.collapse_slashes (to_String path) in
    let bytes :=
      match data with
      | DataString s => utf8_encode codec s
      | DataBytes b => b
      end in
    _addParentDirs
      {| files := <[normalizedPath := bytes]> (files self);
         dirs := dirs self |}
      normalizedPath.

(** [promises.mkdir(path)] *)
Definition mkdir (self : t) (path : jsval) : t :=
  if is_nullish path then self
  else
    let normalizedPath := Path.dir_path (to_String path) in
    {| files := files self; dirs := {[normalizedPath]} ∪ dirs self |}.

(** [{ type: 'dir', mode: 0o40755, size: 0, ... }] *)
Definition dir_stats : Stats :=
  {| stat_type := TypeDir; stat_mode := 16877; stat_size := 0 |}.

(** [{ type: 'file', mode: 0o100644, size: data.length, ... }] *)
Definition file_stats (data : list byte) : Stats :=
  {| stat_type := TypeFile; stat_mode := 33188; stat_size := length data |}.

(** [[...self.files.keys(), ...self.dirs].some(p =>
      p.startsWith(normalizedPath + '/'))] *)
Definition hasChildren (self : t) (normalizedPath : string) : bool :=
  existsb (Path.starts_with (normalizedPath ++ "/"))
    (elements (dom (files self)) ++ elements (dirs self))%list.

(** [promises.stat(path)]: the filesystem after the call (a directory
    found through its children is recorded) and what the call resolves
    to. *)
Definition stat (self : t) (path : jsval) : t * outcome fs_error Stats :=
  if is_nullish path then (self, Throws (enoent "ENOENT: path is undefined"))
  else
    let normalizedPath := Path.dir_path (to_String path) in
    if bool_decide (normalizedPath ∈ dirs self) then (self, Returns dir_stats)
    else
      match files self !! normalizedPath with
      | Some data => (self, Returns (file_stats data))
      | None =>
          if hasChildren self normalizedPath then
            ({| files := files self; dirs := {[normalizedPath]} ∪ dirs self |},
             Returns dir_stats)
          else
            (self,
             Throws (enoent ("ENOENT: no such file or directory, stat '"
                             ++ normalizedPath ++ "'")))
      end.

(** [promises.lstat(path)] *)
Definition lstat (self : t) (path : jsval) : t * outcome fs_error Stats :=
  stat self path.

(** The name that the loops of [readdir] add for the stored path [p]:
    [p.substring(prefix.length).split('/')[0]] when [p] starts with
    [prefix] and that name is not empty. *)
Definition child_name (prefix p : string) : option string :=
  if Path.starts_with prefix p then
    let rest := Path.substring_from (String.length prefix) p in
    let name :=
      match Path.split_slash rest with
      | [] => EmptyString
      | first :: _ => first
      end in
    if truthy_string name then Some name else None
  else None.

(** [promises.readdir(path)]: the names in the array that the call
    resolves to.  The array holds each name once ([entries] is a [Set]);
    its order, that of insertion into [files] and [dirs], is not
    modelled. *)
Definition readdir (self : t) (path : jsval) : gset string :=
  if is_nullish path then ∅
  else
    let normalizedPath := Path.dir_path (to_String path) in
    let prefix :=
      if String.eqb normalizedPath "/" then "/" else normalizedPath ++ "/" in
    set_omap (C:=gset string) (child_name prefix) (dom (files self))
    ∪ set_omap (C:=gset string)
        (fun dirPath =>
           if String.eqb dirPath normalizedPath then None
           else child_name prefix dirPath)
        (dirs self).

(** [promises.unlink(path)], for a string: the key is the path as it is
    given. *)
Definition unlink (self : t) (path : string) : t :=
  {| files := delete path (files self); dirs := dirs self |}.

(** [promises.rename(oldPath, newPath)], for strings.  A stored
    [Uint8Array] is an object, so [if (data)] asks whether [oldPath] is a
    key. *)
Definition rename (self : t) (oldPath newPath : string) : t :=
  match files self !! oldPath with
  | Some data =>
      {| files := delete oldPath (<[newPath := data]> (files self));
         dirs := dirs self |}
  | None => self
  end.

(** [promises.readlink(path)] *)
Definition readlink (self : t) (path : jsval) : outcome fs_error string :=
  Throws (enoent ("ENOENT: no such file or directory, readlink '"
                  ++ to_String path ++ "'")).

End Promises.

End MemoryFS.

(** ** Ingestion *)

(** An uploaded [File]: its [webkitRelativePath] and the bytes that
    [arrayBuffer()] resolves to. *)
Record File : Type := {
  webkitRelativePath : string;
  arrayBuffer : list byte
}.

(** The module-level bindings [fs] and [gitCache].  The cache belongs to
    the repository reader; the module only ever replaces it by [{}]. *)
Record session : Type := {
  fs : MemoryFS.t;
  gitCache : gmap string string
}.

(** [const fs = new MemoryFS(); let gitCache = {};] *)
Definition initial_session : session :=
  {| fs := MemoryFS.create; gitCache := ∅ |}.

Section Ingestion.

Context (codec : TextCodec).

(** The path that the loop of [loadFilesIntoFs] writes for one file, or
    [None] when the file is skipped ([continue]). *)
Definition upload_path (rootPrefix : string) (file : File) : option string :=
  let relativePath :=
    Path.substring_from (String.length rootPrefix) (webkitRelativePath file) in
  if negb (truthy_string relativePath) || String.eqb relativePath "/" then None
  else
    Some (if Path.starts_with "/" relativePath then relativePath
          else "/" ++ relativePath).

(** One iteration of the loop of [loadFilesIntoFs]. *)
Definition load_file (rootPrefix : string) (self : MemoryFS.t) (file : File)
    : MemoryFS.t :=
  match upload_path rootPrefix file with
  | None => self
  | Some path =>
      MemoryFS.writeFile codec self (JStr path) (DataBytes (arrayBuffer file))
  end.

(** [files[0].webkitRelativePath.split('/')[0]] *)
Definition root_prefix (first : File) : string :=
  match Path.split_slash (webkitRelativePath first) with
  | [] => EmptyString
  | root :: _ => root
  end.

(** [loadFilesIntoFs(files)] *)
Definition loadFilesIntoFs (files : list File) (s : session) : session :=
  match files with
  | [] => s
  | first :: _ =>
      let cleared := MemoryFS.clear (fs s) in
      let rootPrefix := root_prefix first in
      {| fs := fold_left (load_file rootPrefix) files cleared;
         gitCache := ∅ |}
  end.

End Ingestion.

(** ** Plain objects used as maps, and [Set]s, in insertion order *)

Module JsObject.

(** The own properties of a plain object, in the order of their
    creation.  The object inherits the members of [Object.prototype]. *)
Definition t : Type := list (string * string).

(** The own property [k] of [o]; [None] when [o] has no own property of
    that name. *)
Fixpoint get (k : string) (o : t) : option string :=
  match o with
  | [] => None
  | (k', v) :: rest => if String.eqb k k' then Some v else get k rest
  end.

(** The names of the members of [Object.prototype]. *)
Definition prototype_members : list string :=
  ["constructor"; "__defineGetter__"; "__defineSetter__"; "hasOwnProperty";
   "__lookupGetter__"; "__lookupSetter__"; "isPrototypeOf";
   "propertyIsEnumerable"; "toString"; "valueOf"; "__proto__";
   "toLocaleString"].

Definition inherited (k : string) : bool :=
  existsb (String.eqb k) prototype_members.

(** What [o[k]] evaluates to, when it is not [undefined]: the string of an
    own property, or the member of [Object.prototype] of that name (a
    function; the prototype itself for [__proto__]).  Two inherited
    members are the same object exactly when they have the same name. *)
Inductive prop : Type :=
  | Own (v : string)
  | Inherited (name : string).

(** [o[k]], [None] standing for [undefined] *)
Definition lookup (k : string) (o : t) : option prop :=
  match get k o with
  | Some v => Some (Own v)
  | None => if inherited k then Some (Inherited k) else None
  end.

(** Assignment to an own property, created at the end when it is new. *)
Fixpoint set_own (k v : string) (o : t) : t :=
  match o with
  | [] => [(k, v)]
  | (k', v') :: rest =>
      if String.eqb k k' then (k, v) :: rest else (k', v') :: set_own k v rest
  end.

(** [o[k] = v] for a string [v]: an existing key keeps its place.  For
    [__proto__] the assignment goes to the setter of [Object.prototype],
    which ignores a string: nothing is stored (unless [o] has an own
    property of that name). *)
Definition set (k v : string) (o : t) : t :=
  if String.eqb k "__proto__" && negb (bool_decide (is_Some (get k o))) then o
  else set_own k v o.

(** The value of [c] as a decimal digit. *)
Definition digit (c : ascii) : option N :=
  let n := N_of_ascii c in
  if (48 <=? n)%N && (n <=? 57)%N then Some (n - 48)%N else None.

Fixpoint digits_value (s : string) (acc : N) : option N :=
  match s with
  | EmptyString => Some acc
  | String c rest =>
      match digit c with
      | Some d => digits_value rest (acc * 10 + d)%N
      | None => None
      end
  end.

(** The array index that the key [k] is, if it is one: a decimal numeral
    without leading zero, below [2^32 - 1]. *)
Definition array_index (k : string) : option N :=
  match k with
  | EmptyString => None
  | String c rest =>
      if Ascii.eqb c "0" && truthy_string rest then None
      else
        match digits_value k 0 with
        | Some n => if (n <? 4294967295)%N then Some n else None
        | None => None
        end
  end.

Definition index_value (k : string) : N := default 0%N (array_index k).

(** The order of the array indices that two keys are. *)
Definition index_le (a b : string) : Prop := (index_value a <= index_value b)%N.

#[global] Instance index_le_dec : RelDecision index_le :=
  fun a b => decide (index_value a <= index_value b)%N.

(** [Object.keys(o)]: the keys that are array indices in ascending
    order, then the other keys in the order of their creation. *)
Definition keys (o : t) : list string :=
  let own := map fst o in
  (merge_sort index_le
     (filter (fun k => is_Some (array_index k)) own)
   ++ filter (fun k => ~ is_Some (array_index k)) own)%list.

End JsObject.

Module JsSet.

(** [s.add(x)] *)
Definition add (x : string) (s : list string) : list string :=
  if existsb (String.eqb x) s then s else s ++ [x].

(** [new Set(xs)] *)
Definition of_list (xs : list string) : list string :=
  fold_left (fun s x => add x s) xs [].

End JsSet.

(** ** The repository reader and the text differencer *)

Definition git_error : Type := string.

(** A tree entry as [git.readTree] returns it.  Object ids are hashes of
    the objects' contents, so the graph of tree objects has no cycle: a
    sub-tree entry carries what [git.readTree] gives for its [oid],
    which is either the entries of that tree or a thrown error. *)
#[warnings="-register-all"]
Inductive tree_entry : Type :=
  | BlobEntry (path oid : string)
  | TreeEntry (path oid : string)
      (object : outcome git_error (list tree_entry))
  | CommitEntry (path oid : string).

Definition tree_object : Type := outcome git_error (list tree_entry).

(** Induction on tree entries, with the entries of a readable sub-tree
    covered by the induction hypothesis. *)
Section TreeEntryInd.

Context (P : tree_entry -> Prop).
Hypothesis Hblob : forall path oid, P (BlobEntry path oid).
Hypothesis Hcommit : forall path oid, P (CommitEntry path oid).
Hypothesis Hthrows : forall path oid e, P (TreeEntry path oid (Throws e)).
Hypothesis Htree : forall path oid entries,
  Forall P entries -> P (TreeEntry path oid (Returns entries)).

Fixpoint tree_entry_nested_ind (entry : tree_entry) : P entry :=
  match entry with
  | BlobEntry path oid => Hblob path oid
  | CommitEntry path oid => Hcommit path oid
  | TreeEntry path oid (Throws e) => Hthrows path oid e
  | TreeEntry path oid (Returns entries) =>
      Htree path oid entries
        ((fix all (l : list tree_entry) : Forall P l :=
            match l with
            | [] => List.Forall_nil P
            | x :: rest =>
                List.Forall_cons P x rest (tree_entry_nested_ind x) (all rest)
            end) entries)
  end.

End TreeEntryInd.

(** [commit.tree] of a commit object *)
Record commit_object : Type := {
  tree : string
}.

Record GitReader : Type := {
  resolveRef : jsval -> outcome git_error string;
  readCommit : string -> outcome git_error commit_object;
  readTree : string -> tree_object;
  readBlob : string -> outcome git_error (list byte)
}.

Record Hunk : Type := {
  header : string;
  lines : list string
}.

(** [diff.createPatch] and [diff.parsePatch]; each may throw, as
    [parsePatch] does on a patch that it cannot parse. *)
Record TextDiffer : Type := {
  createPatch : string -> string -> string -> jsval -> jsval
                -> outcome git_error string;
  parsePatch : string -> outcome git_error (list (list Hunk))
}.

(** The calls made to the repository reader, in order. *)
Inductive git_event : Type :=
  | ResolveRef (ref : jsval)
  | ReadCommit (oid : string)
  | ReadTree (oid : string)
  | ReadBlob (oid : string)
  | ReadBlobOfMember (name : string).

(** A computation that calls the reader: the calls it made and how it
    ended. *)
Definition Git (A : Type) : Type := list git_event * outcome git_error A.

Definition ret {A} (a : A) : Git A := ([], Returns a).

Definition bind {A B} (m : Git A) (k : A -> Git B) : Git B :=
  match m with
  | (log, Returns a) => let '(log', r) := k a in ((log ++ log')%list, r)
  | (log, Throws e) => (log, Throws e)
  end.

(** [try { m } catch (e) { h(e) }] *)
Definition try_catch {A} (m : Git A) (h : git_error -> Git A) : Git A :=
  match m with
  | (log, Returns a) => (log, Returns a)
  | (log, Throws e) => let '(log', r) := h e in ((log ++ log')%list, r)
  end.

Definition call {A} (ev : git_event) (r : outcome git_error A) : Git A :=
  ([ev], r).

(** A call to the text differ: no call to the reader is made. *)
Definition differ_call {A} (r : outcome git_error A) : Git A := ([], r).

(** What [git.readBlob] does when the [oid] it is given is a member of
    [Object.prototype] and no string: the reader cannot find an object
    under such an id and throws. *)
Definition readBlob_of_member (name : string) : outcome git_error (list byte) :=
  Throws ("object id is not a string: Object.prototype." ++ name).

Notation "'let*' x ':=' m 'in' k" := (bind m (fun x => k))
  (at level 10, x name, m at level 100, k at level 200).

(** ** The tree walker *)

(** The state of one [listTreeFiles] call while [walkTree] runs: the
    object [fileMap] that the closure fills, and the reader calls made. *)
Record walk_state : Type := {
  fileMap : JsObject.t;
  walk_log : list git_event
}.

Section ForOf.

Context {A : Type} (body : A -> walk_state -> walk_state * outcome git_error unit).

(** [for (const x of xs) { await body(x) }]: a throw ends the loop. *)
Fixpoint for_of (xs : list A) (st : walk_state)
    : walk_state * outcome git_error unit :=
  match xs with
  | [] => (st, Returns tt)
  | x :: rest =>
      match body x st with
      | (st', Returns _) => for_of rest st'
      | (st', Throws e) => (st', Throws e)
      end
  end.

End ForOf.

(** [prefix ? `${prefix}/${path}` : path] *)
Definition full_path (prefix path : string) : string :=
  if truthy_string prefix then prefix ++ "/" ++ path else path.

Definition log_read_tree (oid : string) (st : walk_state) : walk_state :=
  {| fileMap := fileMap st; walk_log := (walk_log st ++ [ReadTree oid])%list |}.

(** The body of the loop of [walkTree] for one entry: a blob is recorded,
    a sub-tree is walked (the recursive call [walkTree(entry.oid,
    fullPath)] reads the tree first), anything else is passed over. *)
Fixpoint walk_entry (prefix : string) (entry : tree_entry) (st : walk_state)
    : walk_state * outcome git_error unit :=
  match entry with
  | BlobEntry path oid =>
      ({| fileMap := JsObject.set (full_path prefix path) oid (fileMap st);
          walk_log := walk_log st |}, Returns tt)
  | TreeEntry path oid object =>
      let st' := log_read_tree oid st in
      match object with
      | Throws e => (st', Throws e)
      | Returns entries => for_of (walk_entry (full_path prefix path)) entries st'
      end
  | CommitEntry _ _ => (st, Returns tt)
  end.

Section Diff.

Context (codec : TextCodec) (git : GitReader) (differ : TextDiffer).

(** [walkTree(oid, prefix)] *)
Definition walkTree (oid prefix : string) (st : walk_state)
    : walk_state * outcome git_error unit :=
  let st' := log_read_tree oid st in
  match readTree git oid with
  | Throws e => (st', Throws e)
  | Returns entries => for_of (walk_entry prefix) entries st'
  end.

(** [listTreeFiles(treeOid)]: [fileMap] is returned only when the walk
    returns; when it throws, the object is dropped with the call. *)
Definition listTreeFiles (treeOid : string) : Git JsObject.t :=
  let '(st, r) := walkTree treeOid "" {| fileMap := []; walk_log := [] |} in
  match r with
  | Returns _ => (walk_log st, Returns (fileMap st))
  | Throws e => (walk_log st, Throws e)
  end.

(** ** The diff orchestrator *)

Inductive diff_status : Type := added | modified | deleted.

Record FileDiffResult : Type := {
  filename : string;
  status : diff_status;
  hunks : list Hunk
}.

(** [files[filepath] || null]; [None] stands for [null]. *)
Definition oid_or_null (v : option JsObject.prop) : option JsObject.prop :=
  match v with
  | Some (JsObject.Own oid) => if truthy_string oid then v else None
  | Some (JsObject.Inherited _) => v
  | None => None
  end.

(** [a === b] on values that are a string, a member of
    [Object.prototype] or [null] *)
Definition strict_eq (a b : option JsObject.prop) : bool :=
  match a, b with
  | None, None => true
  | Some (JsObject.Own x), Some (JsObject.Own y) => String.eqb x y
  | Some (JsObject.Inherited x), Some (JsObject.Inherited y) => String.eqb x y
  | _, _ => false
  end.

(** [!oid] *)
Definition is_falsy (oid : option JsObject.prop) : bool :=
  match oid with
  | None => true
  | Some (JsObject.Own s) => negb (truthy_string s)
  | Some (JsObject.Inherited _) => false
  end.

(** [let status = 'modified'; if (!baseOid) status = 'added';
     if (!compareOid) status = 'deleted';] *)
Definition status_of (baseOid compareOid : option JsObject.prop) : diff_status :=
  let status := modified in
  let status := if is_falsy baseOid then added else status in
  let status := if is_falsy compareOid then deleted else status in
  status.

(** [text.includes('\0')] *)
Fixpoint isBinary (text : string) : bool :=
  match text with
  | EmptyString => false
  | String c rest => Ascii.eqb c zero || isBinary rest
  end.

(** [try { if (oid) { text = decode((await git.readBlob(oid)).blob) } }
     catch (e) { continue }]: [Returns None] stands for the [continue]. *)
Definition fetch_text (oid : option JsObject.prop) : Git (option string) :=
  match oid with
  | None => ret (Some EmptyString)
  | Some (JsObject.Own o) =>
      if truthy_string o then
        try_catch
          (let* blob := call (ReadBlob o) (readBlob git o) in
           ret (Some (utf8_decode codec blob)))
          (fun _ => ret None)
      else ret (Some EmptyString)
  | Some (JsObject.Inherited name) =>
      try_catch
        (let* blob := call (ReadBlobOfMember name) (readBlob_of_member name) in
         ret (Some (utf8_decode codec blob)))
        (fun _ => ret None)
  end.

(** The body of the loop over [allPaths]: the entry pushed to
    [diffResults], or [None] when the path is passed over.  The calls to
    the differ are outside the [try] blocks: what they throw, the body
    throws. *)
Definition diff_path (baseBranch compareBranch : jsval)
    (baseFiles compareFiles : JsObject.t) (filepath : string)
    : Git (option FileDiffResult) :=
  let baseOid := oid_or_null (JsObject.lookup filepath baseFiles) in
  let compareOid := oid_or_null (JsObject.lookup filepath compareFiles) in
  if strict_eq baseOid compareOid then ret None
  else
    let status := status_of baseOid compareOid in
    let* baseText := fetch_text baseOid in
    match baseText with
    | None => ret None
    | Some baseText =>
        let* compareText := fetch_text compareOid in
        match compareText with
        | None => ret None
        | Some compareText =>
            if isBinary baseText || isBinary compareText then ret None
            else
              let* patch :=
                differ_call
                  (createPatch differ filepath baseText compareText
                     baseBranch compareBranch) in
              let* parsedPatch := differ_call (parsePatch differ patch) in
              match parsedPatch with
              | (_ :: _) as hunks0 :: _ =>
                  ret (Some {| filename := filepath; status := status;
                               hunks := hunks0 |})
              | _ => ret None
              end
        end
    end.

(** [for (const filepath of allPaths) { ... }] with [diffResults] as the
    accumulator. *)
Fixpoint diff_paths (baseBranch compareBranch : jsval)
    (baseFiles compareFiles : JsObject.t) (paths : list string)
    (diffResults : list FileDiffResult) : Git (list FileDiffResult) :=
  match paths with
  | [] => ret diffResults
  | filepath :: rest =>
      let* r := diff_path baseBranch compareBranch baseFiles compareFiles
                  filepath in
      diff_paths baseBranch compareBranch baseFiles compareFiles rest
        (match r with
         | Some entry => (diffResults ++ [entry])%list
         | None => diffResults
         end)
  end.

(** [new Set([...Object.keys(baseFiles), ...Object.keys(compareFiles)])] *)
Definition allPaths (baseFiles compareFiles : JsObject.t) : list string :=
  JsSet.of_list (JsObject.keys baseFiles ++ JsObject.keys compareFiles)%list.

(** [try { files = await listTreeFiles(treeOid) } catch (e) { ... }] with
    [files] initialised to [{}]. *)
Definition tree_files_or_empty (treeOid : string) : Git JsObject.t :=
  try_catch (listTreeFiles treeOid) (fun _ => ret []).

(** The part of [generateDiff] after both file maps are known. *)
Definition reconcile (baseBranch compareBranch : jsval)
    (baseFiles compareFiles : JsObject.t) : Git (list FileDiffResult) :=
  diff_paths baseBranch compareBranch baseFiles compareFiles
    (allPaths baseFiles compareFiles) [].

(** [generateDiff(baseBranch, compareBranch)] *)
Definition generateDiff (baseBranch compareBranch : jsval)
    : Git (list FileDiffResult) :=
  if negb (truthy baseBranch) || negb (truthy compareBranch) then ret []
  else
    let* baseCommit := call (ResolveRef baseBranch) (resolveRef git baseBranch) in
    let* compareCommit :=
      call (ResolveRef compareBranch) (resolveRef git compareBranch) in
    if String.eqb baseCommit compareCommit then ret []
    else
      let* baseCommitObj := call (ReadCommit baseCommit) (readCommit git baseCommit) in
      let* compareCommitObj :=
        call (ReadCommit compareCommit) (readCommit git compareCommit) in
      let* baseFiles := tree_files_or_empty (tree baseCommitObj) in
      let* compareFiles := tree_files_or_empty (tree compareCommitObj) in
      reconcile baseBranch compareBranch baseFiles compareFiles.

End Diff.

(** ** Sequences of filesystem calls *)

Inductive fs_call : Type :=
  | WriteFile (path : jsval) (data : write_data)
  | Mkdir (path : jsval).

Section Calls.

Context (codec : TextCodec).

(** The bytes that [writeFile] stores for [data]. *)
Definition stored_bytes (data : write_data) : list byte :=
  match data with
  | DataString s => utf8_encode codec s
  | DataBytes b => b
  end.

Definition perform (self : MemoryFS.t) (c : fs_call) : MemoryFS.t :=
  match c with
  | WriteFile path data => MemoryFS.writeFile codec self path data
  | Mkdir path => MemoryFS.mkdir self path
  end.

(** The filesystem after the calls [cs], made in order on [self]. *)
Definition perform_all (cs : list fs_call) (self : MemoryFS.t) : MemoryFS.t :=
  fold_left perform cs self.

End Calls.

(** The directory paths that the [mkdir] calls among [cs] record. *)
Definition mkdir_paths (cs : list fs_call) : list string :=
  flat_map (fun c =>
    match c with
    | Mkdir path =>
        if is_nullish path then [] else [Path.dir_path (to_String path)]
    | WriteFile _ _ => []
    end) cs.

(** What holds of the directory set after any calls: the root is
    recorded, the ancestors of every file key are recorded, and a
    recorded directory has its ancestors recorded unless it is among
    [made], the paths recorded by [mkdir]. *)
Record dirs_ok (made : list string) (self : MemoryFS.t) : Prop := {
  root_recorded : "/" ∈ MemoryFS.dirs self;
  file_ancestors : forall k, is_Some (MemoryFS.files self !! k) ->
                   forall a, In a (Path.ancestors k) -> a ∈ MemoryFS.dirs self;
  dir_ancestors : forall d, d ∈ MemoryFS.dirs self ->
                  (forall a, In a (Path.ancestors d) -> a ∈ MemoryFS.dirs self) \/ In d made
}.

(** The keys under which [loadFilesIntoFs files] stores contents. *)
Definition loaded_paths (files : list File) : list string :=
  match files with
  | [] => []
  | first :: _ =>
      flat_map (fun file =>
        match upload_path (root_prefix first) file with
        | Some path => [Path.collapse_slashes path]
        | None => []
        end) files
  end.

(** A codec for the examples: one character per byte, which is what UTF-8
    does on ASCII text. *)
Definition byte_codec : TextCodec :=
  {| utf8_decode := string_of_list_byte; utf8_encode := list_byte_of_string |}.

(** ** Notions used to state the properties of the diff *)

(** Some tree that the walk reaches cannot be read. *)
Fixpoint entry_unreadable (entry : tree_entry) : bool :=
  match entry with
  | TreeEntry _ _ (Throws _) => true
  | TreeEntry _ _ (Returns entries) => existsb entry_unreadable entries
  | BlobEntry _ _ | CommitEntry _ _ => false
  end.

Definition tree_unreadable (object : tree_object) : bool :=
  match object with
  | Throws _ => true
  | Returns entries => existsb entry_unreadable entries
  end.

(** Every content identifier of a tree index is a non-empty string, as
    the identifiers of git objects are. *)
Definition oids_present (index : JsObject.t) : Prop :=
  Forall (fun kv => truthy_string (snd kv) = true) index.

(** The entry that the loop of [generateDiff] pushes for [filepath], if
    any. *)
Definition pushed_entry (codec : TextCodec) (git : GitReader)
    (differ : TextDiffer) (baseBranch compareBranch : jsval)
    (baseFiles compareFiles : JsObject.t) (filepath : string)
    : option FileDiffResult :=
  match snd (diff_path codec git differ baseBranch compareBranch
               baseFiles compareFiles filepath) with
  | Returns (Some entry) => Some entry
  | _ => None
  end.

(** The status that C1 gives to a path, from its presence in the two
    tree indexes. *)
Definition expected_status (baseOid compareOid : option string) : diff_status :=
  match baseOid, compareOid with
  | None, _ => added
  | Some _, None => deleted
  | Some _, Some _ => modified
  end.

(** *** A small repository for the examples

    Branches [main] and [same] point to commit [c1], [dev] to [c2],
    [broken] to [c3] and [ctor] to [c4].  The tree of [c3] has a sub-tree
    that cannot be read; the tree of [c4] has a file named
    [constructor]. *)
Definition sample_git : GitReader :=
  {| resolveRef ref :=
       match ref with
       | JStr "main" | JStr "same" => Returns "c1"
       | JStr "dev" => Returns "c2"
       | JStr "broken" => Returns "c3"
       | JStr "ctor" => Returns "c4"
       | _ => Throws "NotFoundError"
       end;
     readCommit oid :=
       match oid with
       | "c1" => Returns {| tree := "t1" |}
       | "c2" => Returns {| tree := "t2" |}
       | "c3" => Returns {| tree := "t3" |}
       | "c4" => Returns {| tree := "t6" |}
       | _ => Throws "NotFoundError"
       end;
     readTree oid :=
       match oid with
       | "t1" => Returns [BlobEntry "foo.txt" "hello1"]
       | "t2" =>
           Returns [BlobEntry "foo.txt" "hello1";
                    BlobEntry "bar.txt" "world1";
                    TreeEntry "img" "t4" (Returns [BlobEntry "dot.png" "nul1"])]
       | "t3" =>
           Returns [BlobEntry "kept.txt" "world1";
                    TreeEntry "lost" "t5" (Throws "NotFoundError")]
       | "t6" =>
           Returns [BlobEntry "foo.txt" "hello1";
                    BlobEntry "constructor" "world1"]
       | _ => Throws "NotFoundError"
       end;
     readBlob oid :=
       match oid with
       | "hello1" => Returns (list_byte_of_string "hello")
       | "world1" => Returns (list_byte_of_string "world")
       | "nul1" => Returns ["P"%byte; x00; "N"%byte]
       | _ => Throws "NotFoundError"
       end |}.

(** A differ for the examples: one hunk when the texts differ, none when
    they are equal. *)
Definition sample_differ : TextDiffer :=
  {| createPatch _ textA textB _ _ :=
       Returns (if String.eqb textA textB then ""
                else "-" ++ textA ++ "+" ++ textB);
     parsePatch patch :=
       Returns (if String.eqb patch "" then [[]]
                else [[ {| header := "@@ -1 +1 @@"; lines := [patch] |} ]]) |}.

(** ** Notions used to state further properties *)

(** The blobs below a tree entry with their full paths, in the order in
    which the walk meets them; nothing below a tree that cannot be
    read. *)
Fixpoint entry_blobs (prefix : string) (entry : tree_entry)
    : list (string * string) :=
  match entry with
  | BlobEntry path oid => [(full_path prefix path, oid)]
  | TreeEntry path _ (Returns entries) =>
      flat_map (entry_blobs (full_path prefix path)) entries
  | TreeEntry _ _ (Throws _) => []
  | CommitEntry _ _ => []
  end.

(** The tree reads that the walk of an entry makes: each sub-tree once,
    before its entries. *)
Fixpoint entry_reads (entry : tree_entry) : list git_event :=
  match entry with
  | TreeEntry _ oid (Returns entries) => ReadTree oid :: flat_map entry_reads entries
  | TreeEntry _ oid (Throws _) => [ReadTree oid]
  | BlobEntry _ _ | CommitEntry _ _ => []
  end.

(** [o[k] = v] for each pair of [kvs] in turn. *)
Definition set_all (kvs : list (string * string)) (o : JsObject.t) : JsObject.t :=
  fold_left (fun o kv => JsObject.set (fst kv) (snd kv) o) kvs o.

(** The state of a walk after it has recorded [blobs] and made the tree
    reads [reads]. *)
Definition walked (blobs : list (string * string)) (reads : list git_event)
    (st : walk_state) : walk_state :=
  {| fileMap := set_all blobs (fileMap st);
     walk_log := (walk_log st ++ reads)%list |}.


(** The text of one side of a path, from the id that the side's index has
    for it: the empty text when the path is absent, the decoded blob when
    it can be read, [None] when it cannot. *)
Definition side_text (codec : TextCodec) (git : GitReader) (oid : option string)
    : option string :=
  match oid with
  | None => Some EmptyString
  | Some o =>
      match readBlob git o with
      | Returns blob => Some (utf8_decode codec blob)
      | Throws _ => None
      end
  end.

(** The path of a directory given by its segments: the root for none. *)
Definition dir_of_segments (parts : list string) : string :=
  match parts with
  | [] => "/"
  | _ :: _ => Path.absolute parts
  end.

(** ** The branch preselected after an upload *)

(** [gitBranches.includes(b)] *)
Definition includes (b : string) (gitBranches : list string) : bool :=
  existsb (String.eqb b) gitBranches.

(** In [handleFolderUpload], the values given to [setBaseBranch] and
    [setCompareBranch] when [gitBranches.length > 0]; [None] when the
    list is empty and nothing is set. *)
Definition default_branches (gitBranches : list string)
    : option (string * string) :=
  match gitBranches with
  | [] => None
  | first :: _ =>
      let defaultBase :=
        if includes "main" gitBranches then "main"
        else if includes "master" gitBranches then "master"
        else first in
      Some (defaultBase, first)
  end.

(** * Properties *)

(** ** Paths *)

Module PathFacts.
Import Path.

Lemma is_slash_true c : is_slash c = true -> c = "/"%char.
Proof. unfold is_slash. intros H. by apply Ascii.eqb_eq in H. Qed.

Lemma is_slash_slash : is_slash "/" = true.
Proof. reflexivity. Qed.

Lemma append_cons c (s t : string) : String c s ++ t = String c (s ++ t).
Proof. reflexivity. Qed.

Lemma append_empty_l (s : string) : "" ++ s = s.
Proof. reflexivity. Qed.

Lemma append_empty_r (s : string) : s ++ "" = s.
Proof.
  induction s as [|c s IH]; [done |]. by rewrite append_cons, IH.
Qed.

Lemma append_assoc (a b c : string) : (a ++ b) ++ c = a ++ (b ++ c).
Proof.
  induction a as [|x a IH]; [done |]. by rewrite !append_cons, IH.
Qed.

(** What [collapse_slashes] does to a string that starts with a
    character other than a slash. *)
Lemma collapse_cons_other c rest :
  is_slash c = false ->
  collapse_slashes (String c rest) = String c (collapse_slashes rest).
Proof. intros H. simpl. by rewrite H. Qed.

Lemma collapse_cons_slash c c' rest :
  is_slash c = true ->
  collapse_slashes (String c (String c' rest)) =
    if is_slash c' then collapse_slashes (String c' rest)
    else String "/" (collapse_slashes (String c' rest)).
Proof.
  intros H.
  change (collapse_slashes (String c (String c' rest)))
    with (if is_slash c then
            if is_slash c' then collapse_slashes (String c' rest)
            else String "/" (collapse_slashes (String c' rest))
          else String c (collapse_slashes (String c' rest))).
  by rewrite H.
Qed.

Lemma collapse_single_slash c :
  is_slash c = true -> collapse_slashes (String c "") = "/".
Proof. intros H. simpl. by rewrite H. Qed.

Lemma has_double_slash_cons c c' rest :
  has_double_slash (String c (String c' rest)) =
    (is_slash c && is_slash c') || has_double_slash (String c' rest).
Proof. reflexivity. Qed.

Lemma collapse_no_double_slash s : has_double_slash (collapse_slashes s) = false.
Proof.
  induction s as [|c rest IH]; [done |].
  destruct (is_slash c) eqn:Hc.
  - destruct rest as [|c' rest']; [by rewrite collapse_single_slash |].
    rewrite (collapse_cons_slash _ _ _ Hc).
    destruct (is_slash c') eqn:Hc'; [exact IH |].
    rewrite (collapse_cons_other _ _ Hc') in IH |- *.
    by rewrite has_double_slash_cons, Hc', andb_false_r, IH.
  - rewrite (collapse_cons_other _ _ Hc).
    destruct (collapse_slashes rest) as [|c' t] eqn:E; [done |].
    by rewrite has_double_slash_cons, Hc, IH.
Qed.

Lemma collapse_fixed s : has_double_slash s = false -> collapse_slashes s = s.
Proof.
  induction s as [|c rest IH]; [done |].
  intros H.
  assert (Hrest : has_double_slash rest = false).
  { destruct rest as [|c' rest']; [done |].
    rewrite has_double_slash_cons in H.
    by apply orb_false_iff in H as [_ ?]. }
  destruct (is_slash c) eqn:Hc.
  - destruct rest as [|c' rest'].
    + rewrite (collapse_single_slash _ Hc). by rewrite (is_slash_true _ Hc).
    + rewrite has_double_slash_cons in H.
      apply orb_false_iff in H as [H1 _]. rewrite Hc in H1. simpl in H1.
      rewrite (collapse_cons_slash _ _ _ Hc), H1, (IH Hrest).
      by rewrite (is_slash_true _ Hc).
  - rewrite (collapse_cons_other _ _ Hc). by rewrite (IH Hrest).
Qed.

(** Normalising a normalised path changes nothing. *)
Lemma collapse_idempotent s :
  collapse_slashes (collapse_slashes s) = collapse_slashes s.
Proof. apply collapse_fixed, collapse_no_double_slash. Qed.

Lemma collapse_cons_nonempty c rest : collapse_slashes (String c rest) <> "".
Proof.
  revert c. induction rest as [|c' rest IH]; intros c.
  - simpl. by destruct (is_slash c).
  - destruct (is_slash c) eqn:Hc.
    + rewrite (collapse_cons_slash _ _ _ Hc). destruct (is_slash c'); [apply IH | done].
    + by rewrite (collapse_cons_other _ _ Hc).
Qed.

Lemma ends_with_slash_cons c c' rest :
  ends_with_slash (String c (String c' rest)) = ends_with_slash (String c' rest).
Proof. reflexivity. Qed.

Lemma collapse_ends_with_slash s :
  ends_with_slash (collapse_slashes s) = ends_with_slash s.
Proof.
  induction s as [|c rest IH]; [done |].
  destruct rest as [|c' rest'].
  - simpl. destruct (is_slash c) eqn:Hc; simpl; [done | by rewrite Hc].
  - rewrite ends_with_slash_cons, <- IH.
    assert (Hne : forall x, ends_with_slash (String x (collapse_slashes (String c' rest')))
                    = ends_with_slash (collapse_slashes (String c' rest'))).
    { intros x. pose proof (collapse_cons_nonempty c' rest') as Hn.
      by destruct (collapse_slashes (String c' rest')). }
    destruct (is_slash c) eqn:Hc.
    + rewrite (collapse_cons_slash _ _ _ Hc). destruct (is_slash c'); by rewrite ?Hne.
    + by rewrite (collapse_cons_other _ _ Hc), Hne.
Qed.

(** *** Segments *)

Lemma split_slash_cons c rest :
  split_slash (String c rest) =
    if is_slash c then EmptyString :: split_slash rest
    else match split_slash rest with
         | [] => [String c EmptyString]
         | first :: others => String c first :: others
         end.
Proof. reflexivity. Qed.

Lemma split_slash_not_nil s : split_slash s <> [].
Proof.
  destruct s as [|c rest]; [done |]. rewrite split_slash_cons.
  destruct (is_slash c); [done |]. by destruct (split_slash rest).
Qed.

Lemma split_slash_pieces s : Forall (fun x => has_slash x = false) (split_slash s).
Proof.
  induction s as [|c rest IH]; [by repeat constructor |].
  rewrite split_slash_cons. destruct (is_slash c) eqn:Hc.
  - by constructor.
  - destruct (split_slash rest) as [|first others].
    + repeat constructor. simpl. by rewrite Hc.
    + inversion IH as [|? ? Hfirst Hothers]; subst. constructor; [|done].
      simpl. by rewrite Hc.
Qed.

Lemma segments_are_segments s : Forall segment (segments s).
Proof.
  unfold segments. pose proof (split_slash_pieces s) as H.
  induction H as [|x l Hx Hl IH]; [constructor |].
  simpl. destruct (truthy_string x) eqn:E; [|done]. by constructor.
Qed.

(** Splitting a slash-free piece followed by the rest of a path. *)
Lemma split_slash_piece p rest :
  has_slash p = false ->
  split_slash (p ++ rest) =
    match rest with
    | EmptyString => [p]
    | String _ _ =>
        match split_slash rest with
        | [] => [p]
        | first :: others => (p ++ first) :: others
        end
    end.
Proof.
  induction p as [|c p IH]; intros Hp.
  - rewrite append_empty_l. destruct rest as [|c rest]; [done |].
    destruct (split_slash (String c rest)) eqn:E; [|done].
    by apply split_slash_not_nil in E.
  - simpl in Hp. apply orb_false_iff in Hp as [Hc Hp].
    rewrite append_cons, split_slash_cons, Hc, (IH Hp).
    destruct rest as [|c' rest']; [done |].
    by destruct (split_slash (String c' rest')).
Qed.

Lemma split_slash_piece_slash p rest :
  has_slash p = false ->
  split_slash (p ++ "/" ++ rest) = p :: split_slash rest.
Proof.
  intros Hp. rewrite (split_slash_piece _ _ Hp).
  change ("/" ++ rest) with (String "/" rest).
  rewrite split_slash_cons, is_slash_slash. by rewrite append_empty_r.
Qed.

Lemma absolute_cons p rest : absolute (p :: rest) = "/" ++ p ++ absolute rest.
Proof. reflexivity. Qed.

Lemma segments_piece_absolute p l :
  has_slash p = false -> Forall segment l ->
  List.filter truthy_string (split_slash (p ++ absolute l)) =
    (List.filter truthy_string [p] ++ l)%list.
Proof.
  intros Hp Hl. revert p Hp. induction Hl as [|q r [Hq1 Hq2] Hr IH]; intros p Hp.
  - simpl absolute. rewrite append_empty_r.
    rewrite <- (append_empty_r p) at 1. rewrite (split_slash_piece _ _ Hp).
    by rewrite app_nil_r.
  - rewrite absolute_cons, (split_slash_piece_slash _ _ Hp).
    change (p :: split_slash (q ++ absolute r))
      with ([p] ++ split_slash (q ++ absolute r))%list.
    rewrite List.filter_app, (IH q Hq2). simpl. by rewrite Hq1.
Qed.

(** The segments of the absolute path built from segments are those
    segments. *)
Lemma segments_absolute l : Forall segment l -> segments (absolute l) = l.
Proof.
  intros Hl. destruct Hl as [|p r [Hp1 Hp2] Hr]; [done |].
  unfold segments. rewrite absolute_cons.
  change ("/" ++ p ++ absolute r) with (String "/" (p ++ absolute r)).
  rewrite split_slash_cons, is_slash_slash.
  change (List.filter truthy_string ("" :: split_slash (p ++ absolute r)))
    with (List.filter truthy_string (split_slash (p ++ absolute r))).
  rewrite (segments_piece_absolute _ _ Hp2 Hr). simpl. by rewrite Hp1.
Qed.

Lemma in_ancestors a s :
  In a (ancestors s) <->
  exists i, 1 <= i < length (segments s) /\ a = absolute (take i (segments s)).
Proof.
  unfold ancestors. rewrite in_map_iff. split.
  - intros (i & <- & Hi). apply in_seq in Hi. exists i. split; [lia | done].
  - intros (i & Hi & ->). exists i. split; [done |]. apply in_seq. lia.
Qed.

(** The ancestors of an ancestor of [s] are ancestors of [s]. *)
Lemma ancestors_of_ancestor s a b :
  In a (ancestors s) -> In b (ancestors a) -> In b (ancestors s).
Proof.
  intros (i & Hi & ->)%in_ancestors (j & Hj & ->)%in_ancestors.
  pose proof (segments_are_segments s) as Hseg.
  assert (Htake : Forall segment (take i (segments s))) by by apply Forall_take.
  rewrite (segments_absolute _ Htake) in Hj |- *.
  rewrite length_take in Hj.
  apply in_ancestors. exists j. split; [lia |].
  rewrite take_take. f_equal. f_equal. lia.
Qed.

End PathFacts.

(** ** The in-memory filesystem *)

Module MemoryFSFacts.
Import Path PathFacts MemoryFS.

Section WithCodec.

Context (codec : TextCodec).

Lemma files_addParentDirs self filePath :
  files (_addParentDirs self filePath) = files self.
Proof. reflexivity. Qed.

Lemma files_writeFile self path data :
  is_nullish path = false ->
  files (writeFile codec self path data) =
    <[collapse_slashes (to_String path) := stored_bytes codec data]> (files self).
Proof. intros H. unfold writeFile. by rewrite H. Qed.

Lemma readFile_found self path data :
  is_nullish path = false ->
  files self !! collapse_slashes (to_String path) = Some data ->
  readFile codec self path None = Returns (AsBuffer data).
Proof.
  intros Hn Hl. unfold readFile. cbn [arg_is_nullish String_of]. by rewrite Hn, Hl.
Qed.

Lemma readFile_absent self path encoding :
  is_nullish path = false ->
  files self !! collapse_slashes (to_String path) = None ->
  readFile codec self path encoding =
    Throws (enoent ("ENOENT: no such file or directory, open '"
                    ++ collapse_slashes (to_String path) ++ "'")).
Proof.
  intros Hn Hl. unfold readFile. cbn [arg_is_nullish String_of]. by rewrite Hn, Hl.
Qed.

Lemma readFile_nullish self path encoding :
  is_nullish path = true ->
  readFile codec self path encoding = Throws (enoent "ENOENT: path is undefined").
Proof. intros Hn. unfold readFile. cbn [arg_is_nullish]. by rewrite Hn. Qed.

Lemma addParentDirs_loop_elem current parts (ds : gset string) x :
  x ∈ addParentDirs_loop current parts ds <->
  x ∈ ds \/ exists i, 1 <= i < length parts /\ x = current ++ absolute (take i parts).
Proof.
  revert current ds. induction parts as [|p rest IH]; intros current ds.
  - simpl. split; [by left |]. intros [?|(i & Hi & _)]; [done | lia].
  - destruct rest as [|q r].
    + simpl. split; [by left |]. intros [?|(i & Hi & _)]; [done | lia].
    + change (addParentDirs_loop current (p :: q :: r) ds)
        with (addParentDirs_loop (current ++ "/" ++ p) (q :: r)
                ({[current ++ "/" ++ p]} ∪ ds)).
      rewrite IH, elem_of_union, elem_of_singleton. split.
      * intros [[->|?]|(i & Hi & ->)].
        -- right. exists 1. split; [simpl; lia |].
           simpl take. rewrite absolute_cons. simpl absolute.
           by rewrite append_empty_r.
        -- by left.
        -- right. exists (S i). split; [simpl in *; lia |].
           change (take (S i) (p :: q :: r)) with (p :: take i (q :: r)).
           by rewrite absolute_cons, !append_assoc.
      * intros [?|(i & Hi & ->)]; [by left; right |].
        destruct i as [|[|i]]; [lia | |].
        -- left; left. simpl take. rewrite absolute_cons. simpl absolute.
           by rewrite append_empty_r.
        -- right. exists (S i). split; [simpl in *; lia |].
           change (take (S (S i)) (p :: q :: r)) with (p :: take (S i) (q :: r)).
           by rewrite absolute_cons, !append_assoc.
Qed.

(** [_addParentDirs] records exactly the ancestors of the path. *)
Lemma dirs_addParentDirs self filePath x :
  x ∈ dirs (_addParentDirs self filePath) <->
  x ∈ dirs self \/ In x (ancestors filePath).
Proof.
  unfold _addParentDirs. simpl. rewrite addParentDirs_loop_elem, in_ancestors.
  split; (intros [?|(i & Hi & ->)]; [by left | right; exists i; split; done]).
Qed.

Lemma dirs_writeFile self path data x :
  is_nullish path = false ->
  x ∈ dirs (writeFile codec self path data) <->
  x ∈ dirs self \/ In x (ancestors (collapse_slashes (to_String path))).
Proof. intros H. unfold writeFile. rewrite H. by rewrite dirs_addParentDirs. Qed.

Lemma dirs_mkdir self path x :
  is_nullish path = false ->
  x ∈ dirs (mkdir self path) <->
  x = dir_path (to_String path) \/ x ∈ dirs self.
Proof.
  intros H. unfold mkdir. rewrite H. simpl.
  by rewrite elem_of_union, elem_of_singleton.
Qed.

(** Calls of [writeFile] and [mkdir] only add directories. *)
Lemma dirs_perform_mono self c x :
  x ∈ dirs self -> x ∈ dirs (perform codec self c).
Proof.
  intros Hx. destruct c as [path data|path]; simpl.
  - destruct (is_nullish path) eqn:Hn.
    + unfold writeFile. by rewrite Hn.
    + apply dirs_writeFile; auto.
  - destruct (is_nullish path) eqn:Hn.
    + unfold mkdir. by rewrite Hn.
    + apply dirs_mkdir; auto.
Qed.

Lemma dirs_ok_create : dirs_ok [] create.
Proof.
  split.
  - simpl. by apply elem_of_singleton.
  - intros k [? Hk]. simpl in Hk. by rewrite lookup_empty in Hk.
  - intros d Hd. simpl in Hd. apply elem_of_singleton in Hd as ->.
    left. intros a Ha. by vm_compute in Ha.
Qed.

Lemma dirs_ok_perform made self c :
  dirs_ok made self -> dirs_ok (made ++ mkdir_paths [c]) (perform codec self c).
Proof.
  intros [Hroot Hfiles Hdirs]. split.
  - by apply dirs_perform_mono.
  - destruct c as [path data|path]; simpl.
    + destruct (is_nullish path) eqn:Hn.
      { unfold writeFile. rewrite Hn. done. }
      intros k Hk a Ha. apply dirs_writeFile; [done |].
      rewrite files_writeFile in Hk by done.
      destruct (decide (collapse_slashes (to_String path) = k)) as [<-|Hne].
      * by right.
      * rewrite lookup_insert_ne in Hk by done. left. by apply (Hfiles k).
    + destruct (is_nullish path) eqn:Hn.
      { unfold mkdir. rewrite Hn. done. }
      intros k Hk a Ha. apply dirs_mkdir; [done |]. right.
      apply (Hfiles k); [|done]. unfold mkdir in Hk. by rewrite Hn in Hk.
  - destruct c as [path data|path]; simpl.
    + rewrite app_nil_r. destruct (is_nullish path) eqn:Hn.
      { unfold writeFile. rewrite Hn. done. }
      intros d Hd. apply dirs_writeFile in Hd; [|done].
      destruct Hd as [Hd|Hd].
      * destruct (Hdirs d Hd) as [Hanc|Hmade]; [|by right].
        left. intros a Ha. apply dirs_writeFile; auto.
      * left. intros a Ha. apply dirs_writeFile; [done |]. right.
        by apply (ancestors_of_ancestor _ d).
    + destruct (is_nullish path) eqn:Hn.
      { unfold mkdir. rewrite Hn, app_nil_r. done. }
      intros d Hd. apply dirs_mkdir in Hd; [|done].
      destruct Hd as [->|Hd].
      * right. apply in_or_app. right. by left.
      * destruct (Hdirs d Hd) as [Hanc|Hmade].
        -- left. intros a Ha. apply dirs_mkdir; auto.
        -- right. apply in_or_app. by left.
Qed.

Lemma mkdir_paths_app cs cs' :
  mkdir_paths (cs ++ cs') = (mkdir_paths cs ++ mkdir_paths cs')%list.
Proof. unfold mkdir_paths. apply flat_map_app. Qed.

Lemma dirs_ok_perform_all cs made self :
  dirs_ok made self ->
  dirs_ok (made ++ mkdir_paths cs) (perform_all codec cs self).
Proof.
  revert made self. induction cs as [|c cs IH]; intros made self H.
  - simpl. by rewrite app_nil_r.
  - change (c :: cs) with ([c] ++ cs)%list at 1.
    rewrite mkdir_paths_app, app_assoc.
    apply (IH _ (perform codec self c)). by apply dirs_ok_perform.
Qed.

(** Every key of [files] was stored by a call that normalised it. *)
Lemma keys_perform_all cs self (P : string -> Prop) :
  (forall s, P (collapse_slashes s)) ->
  (forall k, is_Some (files self !! k) -> P k) ->
  forall k, is_Some (files (perform_all codec cs self) !! k) -> P k.
Proof.
  intros HP. revert self. induction cs as [|c cs IH]; intros self H; [done |].
  apply (IH (perform codec self c)).
  intros k Hk. destruct c as [path data|path]; simpl in Hk.
  - destruct (is_nullish path) eqn:Hn.
    + unfold writeFile in Hk. rewrite Hn in Hk. auto.
    + rewrite files_writeFile in Hk by done.
      destruct (decide (collapse_slashes (to_String path) = k)) as [<-|Hne];
        [apply HP |].
      rewrite lookup_insert_ne in Hk by done. auto.
  - destruct (is_nullish path) eqn:Hn; unfold mkdir in Hk; rewrite Hn in Hk; auto.
Qed.

End WithCodec.

End MemoryFSFacts.

Import Path PathFacts MemoryFSFacts.

(** C5.  After [writeFile(path, bytes)], [readFile] of the normalised
    path returns exactly [bytes], and so does [readFile] of [path]
    itself. *)
Theorem write_read_roundtrip (codec : TextCodec) (self : MemoryFS.t)
    (path : string) (bytes : list byte) :
  let self' := MemoryFS.writeFile codec self (JStr path) (DataBytes bytes) in
  MemoryFS.readFile codec self' (JStr (collapse_slashes path)) None
    = Returns (AsBuffer bytes)
  /\ MemoryFS.readFile codec self' (JStr path) None = Returns (AsBuffer bytes).
Proof.
  intros self'.
  assert (Hl : MemoryFS.files self' !! collapse_slashes path = Some bytes).
  { unfold self'. rewrite files_writeFile by done. apply lookup_insert_eq. }
  split; apply readFile_found; try done.
  simpl. by rewrite collapse_idempotent.
Qed.

(** [readFile] of an object whose string conversion throws, such as
    [Object.create(null)], throws that [TypeError], which is not an ENOENT
    error, although the argument is neither [undefined] nor [null]
    (against C6). *)
Lemma readFile_throws_type_error :
  let thrown := OtherError "TypeError" "Cannot convert object to primitive value" in
  MemoryFS.readFile byte_codec MemoryFS.create (Unconvertible thrown) None
    = Throws thrown
  /\ forall msg, thrown <> FsError {| code := "ENOENT"; message := msg |}.
Proof. by split. Qed.

(** C6, amended.  For every argument whose string conversion returns,
    [readFile] throws an error with the code ENOENT exactly when the
    argument is [undefined], [null] or has no entry in [files] under its
    normalised string form, and returns in every other case; for an
    argument whose string conversion throws, [readFile] throws what the
    conversion throws. *)
Theorem readFile_throws_enoent_iff (codec : TextCodec) (self : MemoryFS.t)
    (encoding : option string) :
  (forall path : jsval,
     let absent :=
       path = JUndefined \/ path = JNull
       \/ MemoryFS.files self !! collapse_slashes (to_String path) = None in
     ((exists msg, MemoryFS.readFile codec self path encoding
                   = Throws {| code := "ENOENT"; message := msg |}) <-> absent)
     /\ ((exists content, MemoryFS.readFile codec self path encoding
                          = Returns content) <-> ~ absent))
  /\ (forall thrown : js_error,
        MemoryFS.readFile codec self (Unconvertible thrown) encoding
          = Throws thrown).
Proof.
  split; [|done].
  intros path absent.
  destruct (is_nullish path) eqn:Hn.
  - assert (Ha : absent) by (destruct path; try done; [by left | by right; left]).
    rewrite readFile_nullish by done. split; split; try done.
    + intros _. by eexists.
    + by intros [? ?].
  - destruct (MemoryFS.files self !! collapse_slashes (to_String path))
      as [data|] eqn:Hl.
    + assert (Ha : ~ absent).
      { intros [->|[->|Hnone]]; simpl in *; congruence. }
      unfold MemoryFS.readFile. cbn [MemoryFS.arg_is_nullish String_of].
      rewrite Hn, Hl.
      split; split; try done.
      * intros [? H]. by case_bool_decide.
      * intros _. case_bool_decide; by eexists.
    + assert (Ha : absent) by (right; right; done).
      rewrite (readFile_absent _ _ _ _ Hn Hl).
      split; split; try done.
      * intros _. by eexists.
      * by intros [? ?].
Qed.

(** A trailing slash of the path survives [writeFile]: the key stored for
    ["/a/"] is ["/a/"] (against C8). *)
Lemma writeFile_keeps_trailing_slash :
  let self := MemoryFS.writeFile byte_codec MemoryFS.create (JStr "/a/")
                (DataBytes []) in
  MemoryFS.files self !! "/a/" = Some []
  /\ ends_with_slash "/a/" = true
  /\ "/a/" <> "/".
Proof. by vm_compute. Qed.

(** C8, amended.  [writeFile] stores the bytes under the path with every
    run of slashes collapsed to one slash: that key has no duplicate
    slash, and it ends with a slash exactly when the path does.  After
    any calls of [writeFile] and [mkdir] on a new filesystem no key of
    [files] has a duplicate slash. *)
Theorem writeFile_stores_collapsed (codec : TextCodec) :
  (forall (self : MemoryFS.t) (path : string) (data : write_data),
     MemoryFS.files (MemoryFS.writeFile codec self (JStr path) data)
       = <[collapse_slashes path := stored_bytes codec data]> (MemoryFS.files self)
     /\ has_double_slash (collapse_slashes path) = false
     /\ ends_with_slash (collapse_slashes path) = ends_with_slash path)
  /\ (forall (cs : list fs_call) (k : string),
        is_Some (MemoryFS.files (perform_all codec cs MemoryFS.create) !! k) ->
        has_double_slash k = false).
Proof.
  split.
  - intros self path data. split; [by apply files_writeFile |].
    split; [apply collapse_no_double_slash | apply collapse_ends_with_slash].
  - intros cs.
    apply (keys_perform_all codec cs MemoryFS.create
             (fun k => has_double_slash k = false)).
    + apply collapse_no_double_slash.
    + intros k [? Hk]. simpl in Hk. by rewrite lookup_empty in Hk.
Qed.

Lemma writeFile_stores_collapsed_witness :
  MemoryFS.files
    (MemoryFS.writeFile byte_codec MemoryFS.create (JStr "//a///b.txt")
       (DataString "x"))
    = <[ "/a/b.txt" := ["x"%byte] ]> ∅
  /\ has_double_slash "/a/b.txt" = false.
Proof.
  destruct (writeFile_stores_collapsed byte_codec) as [Hwrite Hkeys].
  destruct (Hwrite MemoryFS.create "//a///b.txt" (DataString "x")) as (Hf & _ & _).
  split; [exact Hf |].
  apply (Hkeys [WriteFile (JStr "//a///b.txt") (DataString "x")] "/a/b.txt").
  vm_compute. by eexists.
Defined.

(** [mkdir] records the path it is given and nothing above it: after
    [mkdir("/a/b")] on a new filesystem, ["/a/b"] is a recorded directory
    whose ancestor ["/a"] is not (against C7). *)
Lemma mkdir_leaves_ancestors_out :
  let self := perform_all byte_codec [Mkdir (JStr "/a/b")] MemoryFS.create in
  "/a/b" ∈ MemoryFS.dirs self
  /\ In "/a" (ancestors "/a/b")
  /\ "/a" ∉ MemoryFS.dirs self.
Proof.
  intros self. unfold self.
  split; [by apply (bool_decide_unpack _); vm_compute |].
  split; [vm_compute; auto |].
  by apply (bool_decide_unpack _); vm_compute.
Qed.

(** C7, amended.  After any calls of [writeFile] and [mkdir] on a new
    filesystem: the root is a recorded directory; every ancestor of every
    key of [files] is a recorded directory; and every ancestor of a
    recorded directory is recorded too, unless that directory is one that
    a [mkdir] call recorded ([mkdir] records its path alone). *)
Theorem ancestors_recorded (codec : TextCodec) (cs : list fs_call) :
  let self := perform_all codec cs MemoryFS.create in
  "/" ∈ MemoryFS.dirs self
  /\ (forall k a, is_Some (MemoryFS.files self !! k) ->
                 In a (ancestors k) -> a ∈ MemoryFS.dirs self)
  /\ (forall d, d ∈ MemoryFS.dirs self ->
        (forall a, In a (ancestors d) -> a ∈ MemoryFS.dirs self)
        \/ In d (mkdir_paths cs)).
Proof.
  intros self.
  destruct (dirs_ok_perform_all codec cs [] MemoryFS.create (dirs_ok_create))
    as [Hroot Hfiles Hdirs].
  split; [exact Hroot |]. split.
  - intros k a Hk Ha. by apply (Hfiles k).
  - exact Hdirs.
Qed.

Lemma ancestors_recorded_witness :
  let self := perform_all byte_codec
                [WriteFile (JStr "/src/lib/a.js") (DataBytes []);
                 Mkdir (JStr "/x/y")] MemoryFS.create in
  "/src/lib" ∈ MemoryFS.dirs self /\ "/src" ∈ MemoryFS.dirs self.
Proof.
  intros self.
  destruct (ancestors_recorded byte_codec
              [WriteFile (JStr "/src/lib/a.js") (DataBytes []);
               Mkdir (JStr "/x/y")]) as (_ & Hfiles & Hdirs).
  assert (H1 : "/src/lib" ∈ MemoryFS.dirs self).
  { apply (Hfiles "/src/lib/a.js"); [vm_compute; by eexists |]. vm_compute. auto. }
  split; [exact H1 |].
  destruct (Hdirs "/src/lib" H1) as [Hanc|Hmade].
  - apply Hanc. vm_compute. auto.
  - exfalso. vm_compute in Hmade. by destruct Hmade as [?|[]].
Defined.

(** ** Ingestion *)

Section IngestionFacts.

Context (codec : TextCodec).

(** A key present after the loop of [loadFilesIntoFs] was present before
    it or is the normalised path of one of the files. *)
Lemma keys_load_files rootPrefix files self k :
  is_Some (MemoryFS.files (fold_left (load_file codec rootPrefix) files self) !! k) ->
  is_Some (MemoryFS.files self !! k)
  \/ exists file path, In file files
       /\ upload_path rootPrefix file = Some path
       /\ k = collapse_slashes path.
Proof.
  revert self. induction files as [|f files IH]; intros self Hk; [by left |].
  simpl in Hk. apply IH in Hk as [Hk|(file & path & Hin & Hp & ->)].
  - unfold load_file in Hk. destruct (upload_path rootPrefix f) as [path|] eqn:Hp.
    + rewrite files_writeFile in Hk by done. simpl in Hk.
      destruct (decide (collapse_slashes path = k)) as [<-|Hne].
      * right. exists f, path. split; [by left | done].
      * rewrite lookup_insert_ne in Hk by done. by left.
    + by left.
  - right. exists file, path. split; [by right | done].
Qed.

Lemma in_loaded_paths first rest file path :
  In file (first :: rest) ->
  upload_path (root_prefix first) file = Some path ->
  In (collapse_slashes path) (loaded_paths (first :: rest)).
Proof.
  intros Hin Hp. unfold loaded_paths. apply in_flat_map.
  exists file. split; [done |]. rewrite Hp. by left.
Qed.

End IngestionFacts.

(** C9.  Loading a non-empty list of files leaves a filesystem that
    depends on those files alone (it is the one obtained by loading them
    into a new session) and an empty reader cache; so whatever was loaded
    before, [readFile] of a path that is not among the paths of the new
    files throws ENOENT. *)
Theorem load_clears_previous (codec : TextCodec) (files : list File)
    (s : session) :
  files <> [] ->
  fs (loadFilesIntoFs codec files s)
    = fs (loadFilesIntoFs codec files initial_session)
  /\ gitCache (loadFilesIntoFs codec files s) = ∅
  /\ forall (path : jsval) (encoding : option string),
       ~ In (collapse_slashes (to_String path)) (loaded_paths files) ->
       exists msg,
         MemoryFS.readFile codec (fs (loadFilesIntoFs codec files s)) path encoding
           = Throws {| code := "ENOENT"; message := msg |}.
Proof.
  intros Hne. destruct files as [|first rest]; [done |].
  split; [done |]. split; [done |].
  intros path encoding Hnot.
  destruct (is_nullish path) eqn:Hn.
  { rewrite readFile_nullish by done. by eexists. }
  destruct (MemoryFS.files (fs (loadFilesIntoFs codec (first :: rest) s))
              !! collapse_slashes (to_String path)) as [data|] eqn:Hl.
  2: { rewrite readFile_absent by done. by eexists. }
  exfalso. apply Hnot.
  assert (Hsome : is_Some
            (MemoryFS.files
               (fold_left (load_file codec (root_prefix first)) (first :: rest)
                  (MemoryFS.clear (fs s)))
               !! collapse_slashes (to_String path))) by by eexists.
  apply keys_load_files in Hsome as [[? Hk]|(file & p & Hin & Hp & ->)].
  - simpl in Hk. by rewrite lookup_empty in Hk.
  - by apply (in_loaded_paths first rest file p).
Qed.

Lemma load_clears_previous_witness :
  let repoA := [ {| webkitRelativePath := "a/only-in-a.txt"; arrayBuffer := ["1"%byte] |} ] in
  let repoB := [ {| webkitRelativePath := "b/only-in-b.txt"; arrayBuffer := ["2"%byte] |} ] in
  let afterA := loadFilesIntoFs byte_codec repoA initial_session in
  let afterB := loadFilesIntoFs byte_codec repoB afterA in
  MemoryFS.readFile byte_codec (fs afterA) (JStr "/only-in-a.txt") None
    = Returns (AsBuffer ["1"%byte])
  /\ exists msg,
       MemoryFS.readFile byte_codec (fs afterB) (JStr "/only-in-a.txt") None
         = Throws {| code := "ENOENT"; message := msg |}.
Proof.
  intros repoA repoB afterA afterB. split; [by vm_compute |].
  assert (Hne : repoB <> []) by done.
  destruct (load_clears_previous byte_codec repoB afterA Hne) as (_ & _ & Hread).
  apply (Hread (JStr "/only-in-a.txt") None).
  vm_compute. by intros [H|[]].
Defined.

(** ** The tree walker and the diff orchestrator *)

Module DiffFacts.

Lemma walk_entry_tree prefix path oid object st :
  walk_entry prefix (TreeEntry path oid object) st =
    match object with
    | Throws e => (log_read_tree oid st, Throws e)
    | Returns entries =>
        for_of (walk_entry (full_path prefix path)) entries (log_read_tree oid st)
    end.
Proof. by destruct object. Qed.

(** A loop over entries throws as soon as one of them does. *)
Lemma for_of_throws entries :
  Forall (fun entry => forall prefix st, entry_unreadable entry = true ->
            exists st' e, walk_entry prefix entry st = (st', Throws e)) entries ->
  existsb entry_unreadable entries = true ->
  forall prefix st, exists st' e,
    for_of (walk_entry prefix) entries st = (st', Throws e).
Proof.
  induction 1 as [|entry rest Hentry Hrest IH]; intros Hex prefix st; [done |].
  simpl in Hex. simpl for_of.
  destruct (entry_unreadable entry) eqn:Hun.
  - destruct (Hentry prefix st eq_refl) as (st' & e & ->). by exists st', e.
  - destruct (walk_entry prefix entry st) as [st' [[]|e]].
    + by apply IH.
    + by exists st', e.
Qed.

Lemma walk_entry_throws entry :
  forall prefix st, entry_unreadable entry = true ->
  exists st' e, walk_entry prefix entry st = (st', Throws e).
Proof.
  induction entry as [| | path oid e | path oid entries IH]
    using tree_entry_nested_ind; intros prefix st Hun; try done.
  - rewrite walk_entry_tree. by eexists _, _.
  - rewrite walk_entry_tree. by apply for_of_throws.
Qed.

Section WithReader.

Context (codec : TextCodec) (git : GitReader) (differ : TextDiffer).

(** The walk of a tree that has an unreadable node throws. *)
Lemma walkTree_throws oid prefix st :
  tree_unreadable (readTree git oid) = true ->
  exists st' e, walkTree git oid prefix st = (st', Throws e).
Proof.
  unfold walkTree, tree_unreadable.
  destruct (readTree git oid) as [entries|e]; intros Hun.
  - apply for_of_throws; [|done].
    apply Forall_forall. intros entry _ prefix' st'. apply walk_entry_throws.
  - by eexists _, _.
Qed.

Lemma listTreeFiles_throws oid :
  tree_unreadable (readTree git oid) = true ->
  exists log e, listTreeFiles git oid = (log, Throws e).
Proof.
  intros Hun. unfold listTreeFiles.
  destruct (walkTree_throws oid "" {| fileMap := []; walk_log := [] |} Hun)
    as (st' & e & ->).
  by eexists _, _.
Qed.

Lemma tree_files_or_empty_unreadable oid :
  tree_unreadable (readTree git oid) = true ->
  exists log, tree_files_or_empty git oid = (log, Returns []).
Proof.
  intros Hun. unfold tree_files_or_empty.
  destruct (listTreeFiles_throws oid Hun) as (log & e & ->).
  simpl. by eexists.
Qed.

Lemma snd_bind_returns {A B} log (a : A) (k : A -> Git B) :
  snd (bind (log, Returns a) k) = snd (k a).
Proof. simpl. by destruct (k a). Qed.

Lemma snd_bind {A B} (m : Git A) (a : A) (k : A -> Git B) :
  snd m = Returns a -> snd (bind m k) = snd (k a).
Proof. destruct m as [log r]. simpl. intros ->. by destruct (k a). Qed.

(** [generateDiff] once both refs and both commits have been read. *)
Lemma generateDiff_after_commits baseBranch compareBranch
    baseCommit compareCommit baseCommitObj compareCommitObj :
  truthy baseBranch = true -> truthy compareBranch = true ->
  resolveRef git baseBranch = Returns baseCommit ->
  resolveRef git compareBranch = Returns compareCommit ->
  baseCommit <> compareCommit ->
  readCommit git baseCommit = Returns baseCommitObj ->
  readCommit git compareCommit = Returns compareCommitObj ->
  snd (generateDiff codec git differ baseBranch compareBranch) =
  snd (let* baseFiles := tree_files_or_empty git (tree baseCommitObj) in
       let* compareFiles := tree_files_or_empty git (tree compareCommitObj) in
       reconcile codec git differ baseBranch compareBranch baseFiles compareFiles).
Proof.
  intros Hb Hc Hrb Hrc Hne Hcb Hcc. unfold generateDiff.
  rewrite Hb, Hc. simpl negb. simpl orb. cbv iota.
  unfold call. rewrite Hrb, Hrc.
  rewrite snd_bind_returns, snd_bind_returns.
  apply String.eqb_neq in Hne. rewrite Hne, Hcb, Hcc.
  by rewrite snd_bind_returns, snd_bind_returns.
Qed.

(** *** The loop over the changed paths *)

Lemma snd_bind_throws {A B} log (e : git_error) (k : A -> Git B) :
  snd (bind (log, Throws e) k) = Throws e.
Proof. reflexivity. Qed.

Lemma lookup_own k o v :
  JsObject.get k o = Some v -> JsObject.lookup k o = Some (JsObject.Own v).
Proof. intros H. unfold JsObject.lookup. by rewrite H. Qed.

Lemma fetch_text_returns oid :
  exists log r, fetch_text codec git oid = (log, Returns r).
Proof.
  unfold fetch_text. destruct oid as [[o|name]|]; [| |by eexists _, _].
  - destruct (truthy_string o); [|by eexists _, _].
    unfold call. destruct (readBlob git o) as [blob|e]; by eexists _, _.
  - by eexists _, _.
Qed.

Lemma fetch_text_binary o blob :
  truthy_string o = true ->
  readBlob git o = Returns blob ->
  fetch_text codec git (Some (JsObject.Own o))
    = ([ReadBlob o], Returns (Some (utf8_decode codec blob))).
Proof. intros Ho Hb. unfold fetch_text, call. by rewrite Ho, Hb. Qed.

Lemma fetch_text_throws o e :
  truthy_string o = true ->
  readBlob git o = Throws e ->
  fetch_text codec git (Some (JsObject.Own o)) = ([ReadBlob o], Returns None).
Proof. intros Ho Hb. unfold fetch_text, call. by rewrite Ho, Hb. Qed.

(** What an entry pushed for [filepath] looks like. *)
Lemma pushed_entry_inv baseBranch compareBranch baseFiles compareFiles filepath r :
  pushed_entry codec git differ baseBranch compareBranch baseFiles compareFiles
    filepath = Some r ->
  let baseOid := oid_or_null (JsObject.lookup filepath baseFiles) in
  let compareOid := oid_or_null (JsObject.lookup filepath compareFiles) in
  strict_eq baseOid compareOid = false
  /\ filename r = filepath
  /\ status r = status_of baseOid compareOid
  /\ hunks r <> [].
Proof.
  unfold pushed_entry, diff_path.
  destruct (strict_eq _ _); [done |].
  destruct (fetch_text_returns
              (oid_or_null (JsObject.lookup filepath baseFiles))) as (l1 & r1 & ->).
  rewrite snd_bind_returns.
  destruct r1 as [baseText|]; [|done].
  destruct (fetch_text_returns
              (oid_or_null (JsObject.lookup filepath compareFiles))) as (l2 & r2 & ->).
  rewrite snd_bind_returns.
  destruct r2 as [compareText|]; [|done].
  destruct (isBinary baseText || isBinary compareText); [done |].
  unfold differ_call.
  destruct (createPatch differ _ _ _ _ _) as [patch|e]; [|done].
  rewrite snd_bind_returns.
  destruct (parsePatch differ patch) as [parsed|e]; [|done].
  rewrite snd_bind_returns.
  destruct parsed as [|[|h hs] ?]; try done.
  simpl. by intros [= <-].
Qed.

(** When the loop returns, it has pushed the entries of the paths it was
    given. *)
Lemma diff_paths_returns baseBranch compareBranch baseFiles compareFiles paths acc
    results :
  snd (diff_paths codec git differ baseBranch compareBranch baseFiles
         compareFiles paths acc) = Returns results ->
  results = (acc ++ omap (pushed_entry codec git differ baseBranch compareBranch
                            baseFiles compareFiles) paths)%list.
Proof.
  revert acc. induction paths as [|filepath rest IH]; intros acc.
  - simpl. intros [= <-]. by rewrite app_nil_r.
  - simpl diff_paths.
    destruct (diff_path codec git differ baseBranch compareBranch baseFiles
                compareFiles filepath) as [log [r|e]] eqn:E; [|done].
    assert (Hp : pushed_entry codec git differ baseBranch compareBranch
                   baseFiles compareFiles filepath = r).
    { unfold pushed_entry. rewrite E. by destruct r. }
    rewrite snd_bind_returns. intros Hres. apply IH in Hres as ->.
    simpl omap. rewrite Hp.
    destruct r as [entry|]; [|done]. by rewrite <- app_assoc.
Qed.

(** No entry of the result bears the name of a path for which nothing is
    pushed. *)
Lemma no_entry_named baseBranch compareBranch baseFiles compareFiles p results :
  pushed_entry codec git differ baseBranch compareBranch baseFiles compareFiles p
    = None ->
  snd (reconcile codec git differ baseBranch compareBranch baseFiles compareFiles)
    = Returns results ->
  forall r, In r results -> filename r <> p.
Proof.
  intros Hnone Hres r Hr Hname.
  unfold reconcile in Hres. apply diff_paths_returns in Hres as ->.
  simpl in Hr.
  apply list_elem_of_In, list_elem_of_omap in Hr as (p' & _ & Hp').
  pose proof (pushed_entry_inv _ _ _ _ _ _ Hp') as (_ & Hfile & _).
  assert (p' = p) as -> by congruence. congruence.
Qed.

End WithReader.

(** *** Sets and objects *)

Lemma in_existsb_eqb x (s : list string) :
  existsb (String.eqb x) s = true <-> In x s.
Proof.
  rewrite existsb_exists. split.
  - intros (y & Hy & ->%String.eqb_eq). done.
  - intros H. exists x. split; [done | apply String.eqb_refl].
Qed.

Lemma in_set_add x y s : In x (JsSet.add y s) <-> In x s \/ x = y.
Proof.
  unfold JsSet.add. destruct (existsb (String.eqb y) s) eqn:E.
  - apply in_existsb_eqb in E. split; [by left |]. by intros [?| ->].
  - rewrite in_app_iff. simpl. split.
    + intros [?|[?|[]]]; auto.
    + intros [?|?]; auto.
Qed.

Lemma in_set_fold x xs s :
  In x (fold_left (fun s y => JsSet.add y s) xs s) <-> In x s \/ In x xs.
Proof.
  revert s. induction xs as [|y xs IH]; intros s; simpl.
  - split; [by left | by intros [?|[]]].
  - rewrite IH, in_set_add. split.
    + intros [[?|?]|?]; auto.
    + intros [?|[?|?]]; auto.
Qed.

Lemma in_set_of_list x xs : In x (JsSet.of_list xs) <-> In x xs.
Proof.
  unfold JsSet.of_list. rewrite in_set_fold. simpl. split; [by intros [[]|?] | auto].
Qed.

Lemma NoDup_set_add y s : NoDup s -> NoDup (JsSet.add y s).
Proof.
  intros Hs. unfold JsSet.add. destruct (existsb (String.eqb y) s) eqn:E; [done |].
  apply NoDup_app. split; [done |]. split; [|apply NoDup_singleton].
  intros x Hx Hy. apply list_elem_of_singleton in Hy as ->.
  apply list_elem_of_In, in_existsb_eqb in Hx. congruence.
Qed.

Lemma NoDup_set_of_list xs : NoDup (JsSet.of_list xs).
Proof.
  unfold JsSet.of_list. generalize (NoDup_nil_2 (A:=string)).
  generalize (@nil string). induction xs as [|y xs IH]; intros s Hs; [done |].
  simpl. by apply IH, NoDup_set_add.
Qed.

Lemma strict_eq_refl a : strict_eq a a = true.
Proof. destruct a as [[x|x]|]; [apply String.eqb_refl | apply String.eqb_refl | done]. Qed.

Lemma strict_eq_true a b : strict_eq a b = true -> a = b.
Proof.
  destruct a as [[x|x]|], b as [[y|y]|]; simpl; try done;
    intros H; by apply String.eqb_eq in H as ->.
Qed.

(** [Object.keys] lists the own keys, each as often as it is one. *)
Lemma keys_Permutation o : JsObject.keys o ≡ₚ map fst o.
Proof.
  unfold JsObject.keys. rewrite merge_sort_Permutation.
  apply filter_app_complement.
Qed.

Lemma get_is_key k o : is_Some (JsObject.get k o) <-> In k (map fst o).
Proof.
  induction o as [|[k0 v0] rest IH]; simpl.
  - split; [by intros [? ?] | done].
  - destruct (String.eqb k k0) eqn:E.
    + apply String.eqb_eq in E as ->. split; [auto | by eexists].
    + rewrite IH. split; [auto |]. intros [->|?]; [|done].
      by rewrite String.eqb_refl in E.
Qed.

Lemma in_keys k o : In k (JsObject.keys o) <-> is_Some (JsObject.get k o).
Proof.
  rewrite get_is_key, <- !list_elem_of_In. by rewrite keys_Permutation.
Qed.

Lemma get_present index k o :
  oids_present index -> JsObject.get k index = Some o -> truthy_string o = true.
Proof.
  induction 1 as [|[k' v] rest Hv Hrest IH]; [done |].
  simpl. destruct (String.eqb k k'); [|done]. simpl in Hv. by intros [= <-].
Qed.

(** For a name that [Object.prototype] does not have, [files[k] || null]
    is the own property, when its id is not empty. *)
Lemma oid_or_null_plain index k :
  oids_present index -> JsObject.inherited k = false ->
  oid_or_null (JsObject.lookup k index) = JsObject.Own <$> JsObject.get k index.
Proof.
  intros Hp Hk. unfold JsObject.lookup.
  destruct (JsObject.get k index) as [o|] eqn:E; simpl.
  - by rewrite (get_present _ _ _ Hp E).
  - by rewrite Hk.
Qed.

Lemma status_of_expected (a b : option string) :
  (forall o, a = Some o -> truthy_string o = true) ->
  (forall o, b = Some o -> truthy_string o = true) ->
  a <> b ->
  status_of (JsObject.Own <$> a) (JsObject.Own <$> b) = expected_status a b.
Proof.
  intros Ha Hb Hne. unfold status_of, expected_status, is_falsy.
  destruct a as [x|], b as [y|]; simpl; try done.
  - by rewrite (Ha x eq_refl), (Hb y eq_refl).
  - by rewrite (Hb y eq_refl).
Qed.

End DiffFacts.

Import DiffFacts.

(** C10.  When either branch name is falsy (the empty string,
    [undefined], [null], [false]) [generateDiff] returns the empty list
    and makes no call to the repository reader. *)
Theorem generateDiff_falsy_branch (codec : TextCodec) (git : GitReader)
    (differ : TextDiffer) (baseBranch compareBranch : jsval) :
  truthy baseBranch = false \/ truthy compareBranch = false ->
  generateDiff codec git differ baseBranch compareBranch = ([], Returns []).
Proof.
  intros [H|H]; unfold generateDiff; rewrite H; [done |].
  by rewrite orb_true_r.
Qed.

Lemma generateDiff_falsy_branch_witness :
  generateDiff byte_codec sample_git sample_differ (JStr "") (JStr "main")
    = ([], Returns []).
Proof. apply generateDiff_falsy_branch. by left. Defined.

(** C2.  When both branch names resolve to the same commit id,
    [generateDiff] returns the empty list, and the only calls it makes to
    the repository reader are ref resolutions: no commit, tree or blob is
    read. *)
Theorem generateDiff_same_commit (codec : TextCodec) (git : GitReader)
    (differ : TextDiffer) (baseBranch compareBranch : jsval) (commit : string) :
  resolveRef git baseBranch = Returns commit ->
  resolveRef git compareBranch = Returns commit ->
  snd (generateDiff codec git differ baseBranch compareBranch) = Returns []
  /\ forall ev, In ev (fst (generateDiff codec git differ baseBranch compareBranch)) ->
       exists ref, ev = ResolveRef ref.
Proof.
  intros Hb Hc. unfold generateDiff.
  destruct (negb (truthy baseBranch) || negb (truthy compareBranch)); [by split |].
  unfold call. rewrite Hb, Hc. simpl. rewrite String.eqb_refl. simpl.
  split; [done |]. intros ev [<-|[<-|[]]]; by eexists.
Qed.

Lemma generateDiff_same_commit_witness :
  generateDiff byte_codec sample_git sample_differ (JStr "main") (JStr "same")
    = ([ResolveRef (JStr "main"); ResolveRef (JStr "same")], Returns [])
  /\ snd (generateDiff byte_codec sample_git sample_differ (JStr "main") (JStr "main"))
       = Returns [].
Proof.
  split; [by vm_compute |].
  by apply (generateDiff_same_commit byte_codec sample_git sample_differ
              (JStr "main") (JStr "main") "c1").
Defined.

(** C3.  When the walk of one side's tree meets a tree that cannot be
    read, [listTreeFiles] throws and that side's file map is [{}] (what the
    walk had collected is dropped): [generateDiff] gives the result of
    reconciling the empty map with the other side's map. *)
Theorem unreadable_tree_counts_as_empty (codec : TextCodec) (git : GitReader)
    (differ : TextDiffer) (baseBranch compareBranch : jsval)
    (baseCommit compareCommit : string)
    (baseCommitObj compareCommitObj : commit_object) :
  truthy baseBranch = true -> truthy compareBranch = true ->
  resolveRef git baseBranch = Returns baseCommit ->
  resolveRef git compareBranch = Returns compareCommit ->
  baseCommit <> compareCommit ->
  readCommit git baseCommit = Returns baseCommitObj ->
  readCommit git compareCommit = Returns compareCommitObj ->
  (tree_unreadable (readTree git (tree baseCommitObj)) = true ->
     (exists log e, listTreeFiles git (tree baseCommitObj) = (log, Throws e))
     /\ snd (tree_files_or_empty git (tree baseCommitObj)) = Returns []
     /\ snd (generateDiff codec git differ baseBranch compareBranch) =
        snd (let* compareFiles := tree_files_or_empty git (tree compareCommitObj) in
             reconcile codec git differ baseBranch compareBranch [] compareFiles))
  /\ (tree_unreadable (readTree git (tree compareCommitObj)) = true ->
     (exists log e, listTreeFiles git (tree compareCommitObj) = (log, Throws e))
     /\ snd (tree_files_or_empty git (tree compareCommitObj)) = Returns []
     /\ snd (generateDiff codec git differ baseBranch compareBranch) =
        snd (let* baseFiles := tree_files_or_empty git (tree baseCommitObj) in
             reconcile codec git differ baseBranch compareBranch baseFiles [])).
Proof.
  intros Hb Hc Hrb Hrc Hne Hcb Hcc.
  pose proof (generateDiff_after_commits codec git differ _ _ _ _ _ _
                Hb Hc Hrb Hrc Hne Hcb Hcc) as Hgen.
  split; intros Hun.
  - split; [by apply listTreeFiles_throws |].
    destruct (tree_files_or_empty_unreadable git _ Hun) as [log Hempty].
    split; [by rewrite Hempty |].
    rewrite Hgen, Hempty. by rewrite snd_bind_returns.
  - split; [by apply listTreeFiles_throws |].
    destruct (tree_files_or_empty_unreadable git _ Hun) as [log Hempty].
    split; [by rewrite Hempty |].
    rewrite Hgen.
    destruct (tree_files_or_empty git (tree baseCommitObj)) as [l [baseFiles|e]];
      [|done].
    rewrite !snd_bind_returns, Hempty. by rewrite snd_bind_returns.
Qed.

Lemma unreadable_tree_counts_as_empty_witness :
  fileMap (fst (walkTree sample_git "t3" "" {| fileMap := []; walk_log := [] |}))
    = [("kept.txt", "world1")]
  /\ snd (generateDiff byte_codec sample_git sample_differ (JStr "broken") (JStr "main"))
     = Returns [ {| filename := "foo.txt"; status := added;
                    hunks := [ {| header := "@@ -1 +1 @@";
                                  lines := ["-+hello"] |} ] |} ].
Proof.
  split; [by vm_compute |].
  assert (Hne : "c3" <> "c1") by done.
  destruct (unreadable_tree_counts_as_empty byte_codec sample_git sample_differ
              (JStr "broken") (JStr "main") "c3" "c1"
              {| tree := "t3" |} {| tree := "t1" |}
              eq_refl eq_refl eq_refl eq_refl Hne eq_refl eq_refl)
    as [Hbase _].
  destruct (Hbase eq_refl) as (_ & _ & ->). by vm_compute.
Defined.

(** C1.  The classification goes wrong for a path that bears the name of
    a member of [Object.prototype].  The tree of [main] has [foo.txt];
    the tree of [ctor] has [foo.txt] and a new file [constructor].  That
    file is absent from the base index, yet [baseFiles["constructor"]]
    is the inherited function and not [undefined]: the status computed is
    [modified], not [added], [git.readBlob] is called with the function,
    and [generateDiff] returns no entry at all, where the property asks
    for an entry [constructor] with status [added]. *)
Theorem constructor_file_is_not_added :
  let baseFiles := [("foo.txt", "hello1")] in
  let compareFiles := [("foo.txt", "hello1"); ("constructor", "world1")] in
  listTreeFiles sample_git "t1" = ([ReadTree "t1"], Returns baseFiles)
  /\ listTreeFiles sample_git "t6" = ([ReadTree "t6"], Returns compareFiles)
  /\ JsObject.get "constructor" baseFiles = None
  /\ JsObject.lookup "constructor" baseFiles
     = Some (JsObject.Inherited "constructor")
  /\ status_of (oid_or_null (JsObject.lookup "constructor" baseFiles))
       (oid_or_null (JsObject.lookup "constructor" compareFiles))
     = modified
  /\ generateDiff byte_codec sample_git sample_differ (JStr "main") (JStr "ctor")
     = ([ResolveRef (JStr "main"); ResolveRef (JStr "ctor");
         ReadCommit "c1"; ReadCommit "c4"; ReadTree "t1"; ReadTree "t6";
         ReadBlobOfMember "constructor"],
        Returns []).
Proof. repeat split; by vm_compute. Qed.

(** C4.  When the blob of a path on the base side or on the compare side
    decodes to a text that contains a NUL character, the loop of
    [generateDiff] pushes nothing for that path, and no entry of the
    result bears its name. *)
Theorem binary_path_not_emitted (codec : TextCodec) (git : GitReader)
    (differ : TextDiffer) (baseBranch compareBranch : jsval)
    (baseFiles compareFiles : JsObject.t) (p : string) :
  (exists oid blob,
     (JsObject.get p baseFiles = Some oid \/ JsObject.get p compareFiles = Some oid)
     /\ truthy_string oid = true
     /\ readBlob git oid = Returns blob
     /\ isBinary (utf8_decode codec blob) = true) ->
  snd (diff_path codec git differ baseBranch compareBranch baseFiles
         compareFiles p) = Returns None
  /\ forall results,
       snd (reconcile codec git differ baseBranch compareBranch baseFiles
              compareFiles) = Returns results ->
       forall r, In r results -> filename r <> p.
Proof.
  intros (oid & blob & Hside & Hoid & Hblob & Hbin).
  assert (Hnone : snd (diff_path codec git differ baseBranch compareBranch
                         baseFiles compareFiles p) = Returns None).
  { unfold diff_path. destruct (strict_eq _ _); [done |].
    destruct Hside as [Hget|Hget]; rewrite (lookup_own _ _ _ Hget);
      simpl oid_or_null; rewrite Hoid.
    - rewrite (fetch_text_binary codec git _ _ Hoid Hblob), snd_bind_returns.
      destruct (fetch_text_returns codec git
                  (oid_or_null (JsObject.lookup p compareFiles))) as (l & r & ->).
      rewrite snd_bind_returns. destruct r as [compareText|]; [|done].
      by rewrite Hbin.
    - destruct (fetch_text_returns codec git
                  (oid_or_null (JsObject.lookup p baseFiles))) as (l & r & ->).
      rewrite snd_bind_returns. destruct r as [baseText|]; [|done].
      rewrite (fetch_text_binary codec git _ _ Hoid Hblob), snd_bind_returns.
      by rewrite Hbin, orb_true_r. }
  split; [done |].
  intros results Hres.
  apply (no_entry_named codec git differ baseBranch compareBranch baseFiles
           compareFiles p results); [|done].
  unfold pushed_entry. by rewrite Hnone.
Qed.

Lemma binary_path_not_emitted_witness :
  snd (diff_path byte_codec sample_git sample_differ (JStr "main") (JStr "dev")
         [("foo.txt", "hello1")]
         [("foo.txt", "hello1"); ("img/dot.png", "nul1")] "img/dot.png")
    = Returns None.
Proof.
  apply (binary_path_not_emitted byte_codec sample_git sample_differ
           (JStr "main") (JStr "dev")).
  exists "nul1", ["P"%byte; x00; "N"%byte].
  split; [by right |]. by vm_compute.
Defined.

(** * Further properties *)

(** ** More on paths *)

Module PathMore.
Import Path PathFacts.

Lemma strip_trailing_fixed s :
  ends_with_slash s = false -> strip_trailing_slashes s = s.
Proof.
  induction s as [|c rest IH]; [done |]. intros H.
  destruct rest as [|c' rest'].
  - simpl in *. by rewrite H.
  - rewrite ends_with_slash_cons in H.
    change (strip_trailing_slashes (String c (String c' rest')))
      with (let rest1 := strip_trailing_slashes (String c' rest') in
            if is_slash c && negb (truthy_string rest1) then EmptyString
            else String c rest1).
    rewrite (IH H). simpl. by rewrite andb_false_r.
Qed.

(** A non-empty path that does not end with a slash is its own
    directory form. *)
Lemma dir_path_fixed s :
  s <> "" -> ends_with_slash s = false -> dir_path s = s.
Proof.
  intros Hne H. unfold dir_path. rewrite (strip_trailing_fixed _ H).
  by destruct s.
Qed.

Lemma ends_with_slash_app a b :
  b <> "" -> ends_with_slash (a ++ b) = ends_with_slash b.
Proof.
  intros Hb. induction a as [|c a IH]; [done |].
  rewrite append_cons. destruct (a ++ b) as [|c' t] eqn:E.
  - destruct a; [|done]. by rewrite append_empty_l in E.
  - by rewrite ends_with_slash_cons.
Qed.

Lemma ends_with_slash_piece p : has_slash p = false -> ends_with_slash p = false.
Proof.
  induction p as [|c p IH]; [done |]. simpl. intros [Hc Hp]%orb_false_iff.
  destruct p; [done | by apply IH].
Qed.

Lemma has_double_slash_piece p rest :
  has_slash p = false -> has_double_slash (p ++ rest) = has_double_slash rest.
Proof.
  induction p as [|c p IH]; [done |]. simpl has_slash.
  intros [Hc Hp]%orb_false_iff. rewrite append_cons, <- (IH Hp).
  destruct (p ++ rest) as [|c' t]; [done |].
  by rewrite has_double_slash_cons, Hc.
Qed.

Lemma absolute_app l m : absolute (l ++ m) = absolute l ++ absolute m.
Proof.
  induction l as [|p l IH]; [done |].
  change ((p :: l) ++ m)%list with (p :: (l ++ m))%list.
  by rewrite !absolute_cons, IH, !append_assoc.
Qed.

Lemma absolute_starts_with_slash l : l <> [] -> exists t, absolute l = String "/" t.
Proof. destruct l as [|p l]; [done |]. intros _. by eexists. Qed.

(** The absolute path of a non-empty list of segments: not empty, no
    slash at its end, no two slashes in a row. *)
Lemma absolute_shape l :
  Forall segment l -> l <> [] ->
  absolute l <> "" /\ ends_with_slash (absolute l) = false
  /\ has_double_slash (absolute l) = false.
Proof.
  intros Hl Hne. split; [by destruct l |].
  induction Hl as [|p rest [Hp1 Hp2] Hrest IH]; [done |].
  rewrite absolute_cons.
  change ("/" ++ p ++ absolute rest) with (String "/" (p ++ absolute rest)).
  destruct p as [|c p']; [done |]. rewrite append_cons.
  rewrite ends_with_slash_cons, has_double_slash_cons, <- append_cons.
  assert (Hc : is_slash c = false).
  { simpl in Hp2. by apply orb_false_iff in Hp2 as [? _]. }
  rewrite Hc, andb_false_r, (has_double_slash_piece _ _ Hp2). simpl orb.
  destruct rest as [|q rest'].
  - simpl absolute. rewrite append_empty_r. split; [|done].
    by apply ends_with_slash_piece.
  - destruct (IH ltac:(done)) as [He Hd]. split; [|done].
    rewrite ends_with_slash_app; [done | by rewrite absolute_cons].
Qed.

Lemma starts_with_app a b : starts_with a (a ++ b) = true.
Proof.
  induction a as [|c a IH]; [by destruct b |].
  rewrite append_cons. simpl. by rewrite Ascii.eqb_refl, IH.
Qed.

Lemma substring_from_app a b : substring_from (String.length a) (a ++ b) = b.
Proof. induction a as [|c a IH]; [by destruct b | done]. Qed.

Lemma split_slash_segment n : has_slash n = false -> split_slash n = [n].
Proof.
  intros Hn. rewrite <- (append_empty_r n) at 1.
  by rewrite (split_slash_piece _ _ Hn).
Qed.

(** The first piece of a segment followed by an absolute path is the
    segment. *)
Lemma split_slash_head n rest :
  has_slash n = false ->
  exists others, split_slash (n ++ absolute rest) = n :: others.
Proof.
  intros Hn. destruct rest as [|q rest'].
  - simpl absolute. rewrite append_empty_r, (split_slash_segment _ Hn). by eexists.
  - rewrite absolute_cons, (split_slash_piece_slash _ _ Hn). by eexists.
Qed.

Lemma collapse_starts_with_slash s :
  starts_with "/" (collapse_slashes s) = starts_with "/" s.
Proof.
  induction s as [|c rest IH]; [done |].
  destruct (is_slash c) eqn:Hc.
  - rewrite (is_slash_true _ Hc). destruct rest as [|c' rest']; [done |].
    rewrite (collapse_cons_slash _ _ _ is_slash_slash).
    destruct (is_slash c') eqn:Hc'; [|done].
    rewrite IH. by rewrite (is_slash_true _ Hc').
  - rewrite (collapse_cons_other _ _ Hc). done.
Qed.

End PathMore.

(** ** More on the in-memory filesystem *)

Module VfsFacts.
Import Path PathFacts PathMore MemoryFS MemoryFSFacts.

Lemma same_fs (a b : t) : files a = files b -> dirs a = dirs b -> a = b.
Proof. destruct a, b. simpl. by intros -> ->. Qed.

Lemma stat_recorded self path :
  is_nullish path = false ->
  dir_path (to_String path) ∈ dirs self ->
  stat self path = (self, Returns dir_stats).
Proof.
  intros Hn Hd. unfold stat. rewrite Hn. by rewrite bool_decide_eq_true_2.
Qed.

Lemma hasChildren_true self normalizedPath child :
  (is_Some (files self !! child) \/ child ∈ dirs self) ->
  starts_with (normalizedPath ++ "/") child = true ->
  hasChildren self normalizedPath = true.
Proof.
  intros Hc Hs. unfold hasChildren. apply existsb_exists. exists child.
  split; [|done]. apply in_app_iff.
  destruct Hc as [Hf|Hd].
  - left. by apply list_elem_of_In, elem_of_elements, elem_of_dom.
  - right. by apply list_elem_of_In, elem_of_elements.
Qed.

Lemma child_name_segment prefix n rest :
  segment n -> child_name prefix (prefix ++ n ++ absolute rest) = Some n.
Proof.
  intros [Hn1 Hn2]. unfold child_name.
  rewrite starts_with_app, substring_from_app.
  destruct (split_slash_head n rest Hn2) as [others ->]. by rewrite Hn1.
Qed.

Lemma child_name_is_segment prefix p name :
  child_name prefix p = Some name -> segment name.
Proof.
  unfold child_name. destruct (starts_with prefix p); [|done].
  pose proof (split_slash_pieces (substring_from (String.length prefix) p)) as Hall.
  destruct (split_slash _) as [|first others]; [done |].
  destruct (truthy_string first) eqn:Ht; [|done]. intros [= <-].
  split; [done |]. by inversion Hall.
Qed.

Section WithCodec.

Context (codec : TextCodec).

Lemma dirs_writeFile_twice self path data1 data2 :
  dirs (writeFile codec (writeFile codec self path data1) path data2)
    = dirs (writeFile codec self path data1).
Proof.
  destruct (is_nullish path) eqn:Hn.
  { unfold writeFile. by rewrite Hn. }
  apply set_eq. intros x. rewrite !dirs_writeFile by done. tauto.
Qed.

End WithCodec.

End VfsFacts.

Import PathMore VfsFacts.

(** X1.  After [writeFile(path, data)], [stat] of the normalised path
    resolves to a file whose size is the number of bytes stored, and
    leaves the filesystem as it is; this for a non-empty path that does
    not end with a slash and is not a recorded directory. *)
Theorem stat_written_file (codec : TextCodec) (self : MemoryFS.t)
    (path : string) (data : write_data) :
  let self' := MemoryFS.writeFile codec self (JStr path) data in
  path <> "" -> ends_with_slash path = false ->
  collapse_slashes path ∉ MemoryFS.dirs self' ->
  MemoryFS.stat self' (JStr (collapse_slashes path))
    = (self', Returns {| stat_type := TypeFile; stat_mode := 33188;
                         stat_size := length (stored_bytes codec data) |}).
Proof.
  intros self' Hne Hend Hdir.
  assert (Hnp : dir_path (collapse_slashes path) = collapse_slashes path).
  { apply dir_path_fixed; [|by rewrite collapse_ends_with_slash].
    destruct path; [done | apply collapse_cons_nonempty]. }
  unfold MemoryFS.stat. simpl is_nullish. cbv iota. simpl to_String. rewrite Hnp.
  rewrite bool_decide_eq_false_2 by done.
  unfold self'. rewrite files_writeFile by done. simpl to_String.
  by rewrite lookup_insert_eq.
Qed.

Lemma stat_written_file_witness :
  snd (MemoryFS.stat
         (MemoryFS.writeFile byte_codec MemoryFS.create (JStr "/src//a.js")
            (DataString "abc"))
         (JStr "/src/a.js"))
    = Returns {| stat_type := TypeFile; stat_mode := 33188; stat_size := 3 |}.
Proof.
  change (JStr "/src/a.js") with (JStr (collapse_slashes "/src//a.js")).
  rewrite (stat_written_file byte_codec MemoryFS.create "/src//a.js"
             (DataString "abc")); [done | done | done |].
  by apply (bool_decide_unpack _); vm_compute.
Defined.


(** X3.  After [writeFile], [stat] of every ancestor of the stored key
    resolves to a directory and leaves the filesystem as it is. *)
Theorem stat_ancestor_of_written (codec : TextCodec) (self : MemoryFS.t)
    (path : string) (data : write_data) (a : string) :
  let self' := MemoryFS.writeFile codec self (JStr path) data in
  In a (ancestors (collapse_slashes path)) ->
  MemoryFS.stat self' (JStr a)
    = (self', Returns {| stat_type := TypeDir; stat_mode := 16877; stat_size := 0 |}).
Proof.
  intros self' Ha. apply stat_recorded; [done |]. simpl to_String.
  assert (Hnp : dir_path a = a).
  { apply in_ancestors in Ha as (i & Hi & ->).
    pose proof (segments_are_segments (collapse_slashes path)) as Hseg.
    destruct (absolute_shape (take i (segments (collapse_slashes path))))
      as (Hne & Hend & _).
    - by apply Forall_take.
    - intros Hnil. apply (f_equal length) in Hnil.
      rewrite length_take in Hnil. simpl in Hnil. lia.
    - by apply dir_path_fixed. }
  rewrite Hnp. apply dirs_writeFile; [done |]. by right.
Qed.

Lemma stat_ancestor_of_written_witness :
  snd (MemoryFS.stat
         (MemoryFS.writeFile byte_codec MemoryFS.create (JStr "/a/b/c.txt")
            (DataBytes []))
         (JStr "/a/b"))
    = Returns {| stat_type := TypeDir; stat_mode := 16877; stat_size := 0 |}.
Proof.
  rewrite (stat_ancestor_of_written byte_codec MemoryFS.create "/a/b/c.txt"
             (DataBytes []) "/a/b"); [done |].
  vm_compute. auto.
Defined.

(** X4.  [mkdir] records its path alone, yet [stat] finds the
    directories above it: after [mkdir] of the path with segments
    [above ++ below], [stat] of the path with segments [above], when that
    path is not a file, resolves to a directory and records it. *)
Theorem stat_finds_directory_above_mkdir (self : MemoryFS.t)
    (above below : list string) :
  Forall segment above -> Forall segment below ->
  above <> [] -> below <> [] ->
  MemoryFS.files self !! absolute above = None ->
  let self' := MemoryFS.mkdir self (JStr (absolute (above ++ below))) in
  snd (MemoryFS.stat self' (JStr (absolute above)))
    = Returns {| stat_type := TypeDir; stat_mode := 16877; stat_size := 0 |}
  /\ absolute above ∈ MemoryFS.dirs (fst (MemoryFS.stat self' (JStr (absolute above)))).
Proof.
  intros Ha Hb Hane Hbne Hfile self'.
  destruct (absolute_shape above Ha Hane) as (Hne & Hend & _).
  assert (Hnp : dir_path (absolute above) = absolute above)
    by by apply dir_path_fixed.
  assert (Hall : Forall segment (above ++ below)) by by apply Forall_app.
  assert (Hne2 : (above ++ below)%list <> []) by by destruct above.
  destruct (absolute_shape _ Hall Hne2) as (Hne' & Hend' & _).
  assert (Hmade : absolute (above ++ below) ∈ MemoryFS.dirs self').
  { unfold self'. apply dirs_mkdir; [done |]. left. simpl to_String.
    symmetry. by apply dir_path_fixed. }
  destruct (decide (absolute above ∈ MemoryFS.dirs self')) as [Hd|Hd].
  { rewrite stat_recorded; [done | done |]. simpl to_String. by rewrite Hnp. }
  assert (Hc : MemoryFS.hasChildren self' (absolute above) = true).
  { apply (hasChildren_true _ _ (absolute (above ++ below))); [by right |].
    rewrite absolute_app.
    destruct (absolute_starts_with_slash below Hbne) as [t ->].
    change (String "/" t) with ("/" ++ t).
    rewrite <- append_assoc. apply starts_with_app. }
  assert (Hfile' : MemoryFS.files self' !! absolute above = None) by exact Hfile.
  unfold MemoryFS.stat. simpl is_nullish. cbv iota. simpl to_String. rewrite Hnp.
  rewrite bool_decide_eq_false_2, Hfile', Hc by done. simpl.
  split; [done |]. apply elem_of_union. left. by apply elem_of_singleton.
Qed.

Lemma stat_finds_directory_above_mkdir_witness :
  let self' := MemoryFS.mkdir MemoryFS.create (JStr "/x/y/z") in
  ("/x" ∉ MemoryFS.dirs self')
  /\ "/x" ∈ MemoryFS.dirs (fst (MemoryFS.stat self' (JStr "/x"))).
Proof.
  intros self'. split.
  { apply (bool_decide_unpack _). by vm_compute. }
  apply (stat_finds_directory_above_mkdir MemoryFS.create ["x"] ["y"; "z"]);
    try done; by repeat constructor.
Defined.

(** X5.  After [mkdir(path)], [stat] of the same path resolves to a
    directory and changes nothing; a second [mkdir] of the path changes
    nothing either, and [mkdir] never touches [files]. *)
Theorem mkdir_then_stat (self : MemoryFS.t) (path : string) :
  let self' := MemoryFS.mkdir self (JStr path) in
  MemoryFS.stat self' (JStr path)
    = (self', Returns {| stat_type := TypeDir; stat_mode := 16877; stat_size := 0 |})
  /\ MemoryFS.mkdir self' (JStr path) = self'
  /\ MemoryFS.files self' = MemoryFS.files self.
Proof.
  intros self'. split; [|split; [|done]].
  - apply stat_recorded; [done |]. unfold self'. apply dirs_mkdir; [done |]. by left.
  - apply same_fs; [done |]. unfold self', MemoryFS.mkdir. simpl.
    apply set_eq. intros x. rewrite !elem_of_union. tauto.
Qed.

(** X6.  Writing twice to the same path leaves the filesystem that the
    second write alone gives: the last content wins and no directory is
    added by the repetition. *)
Theorem writeFile_overwrite (codec : TextCodec) (self : MemoryFS.t)
    (path : jsval) (data1 data2 : write_data) :
  MemoryFS.writeFile codec (MemoryFS.writeFile codec self path data1) path data2
    = MemoryFS.writeFile codec self path data2.
Proof.
  destruct (is_nullish path) eqn:Hn.
  { unfold MemoryFS.writeFile. by rewrite Hn. }
  apply same_fs.
  - rewrite !files_writeFile by done. apply insert_insert_eq.
  - apply set_eq. intros x. rewrite !dirs_writeFile by done. tauto.
Qed.

(** X7.  A write leaves every other file as it was: [readFile] of a path
    whose normalised form differs from that of the written path resolves
    as before the write. *)
Theorem writeFile_other_path (codec : TextCodec) (self : MemoryFS.t)
    (path other : jsval) (data : write_data) (encoding : option string) :
  collapse_slashes (to_String path) <> collapse_slashes (to_String other) ->
  MemoryFS.readFile codec (MemoryFS.writeFile codec self path data) other encoding
    = MemoryFS.readFile codec self other encoding.
Proof.
  intros Hne. destruct (is_nullish path) eqn:Hn.
  { unfold MemoryFS.writeFile. by rewrite Hn. }
  unfold MemoryFS.readFile. cbn [MemoryFS.arg_is_nullish String_of].
  destruct (is_nullish other); [done |].
  rewrite files_writeFile by done. by rewrite lookup_insert_ne.
Qed.

Lemma writeFile_other_path_witness :
  let self := MemoryFS.writeFile byte_codec MemoryFS.create (JStr "/a.txt")
                (DataString "a") in
  MemoryFS.readFile byte_codec
    (MemoryFS.writeFile byte_codec self (JStr "/b.txt") (DataString "b"))
    (JStr "/a.txt") None
  = Returns (AsBuffer ["a"%byte]).
Proof.
  intros self.
  by rewrite (writeFile_other_path byte_codec self (JStr "/b.txt") (JStr "/a.txt")).
Defined.

(** X8.  After [writeFile] of the path with segments
    [above ++ name :: below], [readdir] of the directory with segments
    [above] (the root for none) lists [name]: the file is listed in its
    directory, and each directory above it in the one before. *)
Theorem readdir_lists_written (codec : TextCodec) (self : MemoryFS.t)
    (above below : list string) (name : string) (data : write_data) :
  Forall segment above -> segment name -> Forall segment below ->
  name ∈ MemoryFS.readdir
           (MemoryFS.writeFile codec self
              (JStr (absolute (above ++ name :: below))) data)
           (JStr (dir_of_segments above)).
Proof.
  intros Ha Hn Hb.
  set (key := absolute (above ++ name :: below)).
  assert (Hall : Forall segment (above ++ name :: below)).
  { apply Forall_app. split; [done |]. by constructor. }
  destruct (absolute_shape _ Hall ltac:(by destruct above)) as (_ & _ & Hdouble).
  assert (Hkey : is_Some (MemoryFS.files
                   (MemoryFS.writeFile codec self (JStr key) data) !! key)).
  { rewrite files_writeFile by done. simpl to_String.
    unfold key. rewrite (collapse_fixed _ Hdouble), lookup_insert_eq. by eexists. }
  unfold MemoryFS.readdir. simpl is_nullish. cbv iota. simpl to_String.
  apply elem_of_union. left. apply elem_of_set_omap.
  exists key. split; [by apply elem_of_dom |].
  assert (Hprefix : exists prefix,
            (if String.eqb (dir_path (dir_of_segments above)) "/" then "/"
             else dir_path (dir_of_segments above) ++ "/") = prefix
            /\ key = prefix ++ name ++ absolute below).
  { destruct above as [|p above'].
    - exists "/". split; [done |]. unfold key. simpl app. by rewrite absolute_cons.
    - destruct (absolute_shape (p :: above') Ha ltac:(done)) as (Hne & Hend & _).
      change (dir_of_segments (p :: above')) with (absolute (p :: above')).
      rewrite (dir_path_fixed _ Hne Hend).
      exists (absolute (p :: above') ++ "/"). split.
      + destruct (String.eqb_spec (absolute (p :: above')) "/") as [E|_]; [|done].
        exfalso. rewrite absolute_cons in E.
        inversion Ha as [|? ? [Hp1 _] _]; subst.
        destruct p as [|c p']; [done |].
        change ("/" ++ String c p' ++ absolute above')
          with (String "/" (String c (p' ++ absolute above'))) in E.
        discriminate.
      + unfold key. rewrite absolute_app, absolute_cons. by rewrite !append_assoc. }
  destruct Hprefix as (prefix & -> & ->). by apply child_name_segment.
Qed.

Lemma readdir_lists_written_witness :
  let self := MemoryFS.writeFile byte_codec MemoryFS.create
                (JStr "/src/lib/a.js") (DataBytes []) in
  "src" ∈ MemoryFS.readdir self (JStr "/")
  /\ "a.js" ∈ MemoryFS.readdir self (JStr "/src/lib").
Proof.
  intros self.
  assert (Hs : forall p, truthy_string p = true -> has_slash p = false -> segment p)
    by (intros p ? ?; by split).
  split.
  - apply (readdir_lists_written byte_codec MemoryFS.create [] ["lib"; "a.js"] "src");
      repeat constructor; by apply Hs.
  - apply (readdir_lists_written byte_codec MemoryFS.create ["src"; "lib"] [] "a.js");
      repeat constructor; by apply Hs.
Defined.

(** X9.  [readdir] of [undefined] or [null] lists nothing, and every name
    that [readdir] lists is a single segment: not empty and free of
    slashes. *)
Theorem readdir_names_are_segments (self : MemoryFS.t) (path : jsval) :
  (is_nullish path = true -> MemoryFS.readdir self path = ∅)
  /\ forall name, name ∈ MemoryFS.readdir self path -> segment name.
Proof.
  unfold MemoryFS.readdir. destruct (is_nullish path); [split; [done | set_solver] |].
  split; [done |]. intros name [H|H]%elem_of_union.
  - apply elem_of_set_omap in H as (p & _ & Hp). by eapply child_name_is_segment.
  - apply elem_of_set_omap in H as (p & _ & Hp).
    destruct (String.eqb p _); [done |]. by eapply child_name_is_segment.
Qed.

Lemma readdir_names_are_segments_witness :
  MemoryFS.readdir MemoryFS.create JUndefined = ∅
  /\ segment "b.txt".
Proof.
  destruct (readdir_names_are_segments
              (MemoryFS.writeFile byte_codec MemoryFS.create (JStr "/a/b.txt")
                 (DataBytes []))
              (JStr "/a")) as [_ Hnames].
  destruct (readdir_names_are_segments MemoryFS.create JUndefined) as [Hempty _].
  split; [by apply Hempty |].
  apply Hnames. by apply (bool_decide_unpack _); vm_compute.
Defined.

(** X10.  After [unlink(path)] of a path without duplicate slashes,
    [readFile] of that path throws ENOENT; a file under another key reads
    as before, and no directory is forgotten. *)
Theorem unlink_then_read (codec : TextCodec) (self : MemoryFS.t)
    (path : string) (encoding : option string) :
  has_double_slash path = false ->
  (exists msg, MemoryFS.readFile codec (MemoryFS.unlink self path) (JStr path) encoding
               = Throws {| code := "ENOENT"; message := msg |})
  /\ (forall other : string,
        collapse_slashes other <> path ->
        MemoryFS.readFile codec (MemoryFS.unlink self path) (JStr other) encoding
          = MemoryFS.readFile codec self (JStr other) encoding)
  /\ MemoryFS.dirs (MemoryFS.unlink self path) = MemoryFS.dirs self.
Proof.
  intros Hd. split; [|split; [|done]].
  - rewrite readFile_absent; [by eexists | done |].
    simpl. rewrite (collapse_fixed _ Hd). apply lookup_delete_eq.
  - intros other Hne. unfold MemoryFS.readFile, MemoryFS.unlink. simpl.
    by rewrite lookup_delete_ne.
Qed.

Lemma unlink_then_read_witness :
  let self := MemoryFS.writeFile byte_codec MemoryFS.create (JStr "/a/b.txt")
                (DataBytes ["1"%byte]) in
  exists msg,
    MemoryFS.readFile byte_codec (MemoryFS.unlink self "/a/b.txt")
      (JStr "/a/b.txt") None
    = Throws {| code := "ENOENT"; message := msg |}.
Proof.
  intros self.
  by destruct (unlink_then_read byte_codec self "/a/b.txt" None eq_refl) as [H _].
Defined.

(** X11.  [unlink] takes its path as the key, without normalising it: a
    file written under a path that has a duplicate slash is still read
    under that path after [unlink] of the very same path. *)
Theorem unlink_does_not_normalise (codec : TextCodec) (self : MemoryFS.t)
    (path : string) (bytes : list byte) :
  has_double_slash path = true ->
  let written := MemoryFS.writeFile codec self (JStr path) (DataBytes bytes) in
  MemoryFS.readFile codec (MemoryFS.unlink written path) (JStr path) None
    = Returns (AsBuffer bytes).
Proof.
  intros Hd written. apply readFile_found; [done |].
  assert (Hne : path <> collapse_slashes path).
  { intros E. rewrite E, collapse_no_double_slash in Hd. done. }
  assert (Hw : MemoryFS.files written
               = <[collapse_slashes path := bytes]> (MemoryFS.files self)).
  { unfold written. by rewrite files_writeFile. }
  change (MemoryFS.files (MemoryFS.unlink written path))
    with (delete path (MemoryFS.files written)).
  simpl to_String. rewrite lookup_delete_ne, Hw by done. apply lookup_insert_eq.
Qed.

Lemma unlink_does_not_normalise_witness :
  MemoryFS.readFile byte_codec
    (MemoryFS.unlink
       (MemoryFS.writeFile byte_codec MemoryFS.create (JStr "/a//b.txt")
          (DataBytes ["1"%byte]))
       "/a//b.txt")
    (JStr "/a//b.txt") None
  = Returns (AsBuffer ["1"%byte]).
Proof.
  by apply (unlink_does_not_normalise byte_codec MemoryFS.create "/a//b.txt").
Defined.

(** X12.  [rename(oldPath, newPath)] of a stored file to a different
    path moves its content: it is read under the new path and no longer
    under the old one (paths without duplicate slashes).  The directory
    set is left as it is: the ancestors of the new path are not
    recorded. *)
Theorem rename_moves (codec : TextCodec) (self : MemoryFS.t)
    (oldPath newPath : string) (data : list byte) :
  MemoryFS.files self !! oldPath = Some data ->
  oldPath <> newPath ->
  has_double_slash oldPath = false -> has_double_slash newPath = false ->
  let self' := MemoryFS.rename self oldPath newPath in
  MemoryFS.readFile codec self' (JStr newPath) None = Returns (AsBuffer data)
  /\ (exists msg, MemoryFS.readFile codec self' (JStr oldPath) None
                  = Throws {| code := "ENOENT"; message := msg |})
  /\ MemoryFS.dirs self' = MemoryFS.dirs self.
Proof.
  intros Hold Hne Hdo Hdn self'.
  assert (Hfiles : MemoryFS.files self'
                   = delete oldPath (<[newPath := data]> (MemoryFS.files self))).
  { unfold self', MemoryFS.rename. by rewrite Hold. }
  assert (Hdirs : MemoryFS.dirs self' = MemoryFS.dirs self).
  { unfold self', MemoryFS.rename. by rewrite Hold. }
  split; [|split; [|done]].
  - apply readFile_found; [done |]. simpl to_String.
    rewrite (collapse_fixed _ Hdn), Hfiles, lookup_delete_ne by done.
    apply lookup_insert_eq.
  - rewrite readFile_absent; [by eexists | done |]. simpl to_String.
    rewrite (collapse_fixed _ Hdo), Hfiles. apply lookup_delete_eq.
Qed.

Lemma rename_moves_witness :
  let self := MemoryFS.writeFile byte_codec MemoryFS.create (JStr "/a.txt")
                (DataBytes ["1"%byte]) in
  MemoryFS.readFile byte_codec (MemoryFS.rename self "/a.txt" "/dir/b.txt")
    (JStr "/dir/b.txt") None
  = Returns (AsBuffer ["1"%byte])
  /\ ("/dir" ∉ MemoryFS.dirs (MemoryFS.rename self "/a.txt" "/dir/b.txt")).
Proof.
  intros self.
  assert (Hne : "/a.txt" <> "/dir/b.txt") by done.
  destruct (rename_moves byte_codec self "/a.txt" "/dir/b.txt" ["1"%byte]
              eq_refl Hne eq_refl eq_refl) as (Hread & _ & Hdirs).
  split; [exact Hread |]. rewrite Hdirs.
  apply (bool_decide_unpack _). by vm_compute.
Defined.

(** X13.  [rename] of a stored file to its own path removes it: the entry
    is set and then deleted under the same key.  [rename] of a path that
    is not a key changes nothing. *)
Theorem rename_same_path_removes (self : MemoryFS.t) (path : string) :
  (is_Some (MemoryFS.files self !! path) ->
     MemoryFS.files (MemoryFS.rename self path path) !! path = None)
  /\ (forall newPath, MemoryFS.files self !! path = None ->
        MemoryFS.rename self path newPath = self).
Proof.
  split.
  - intros [data Hd]. unfold MemoryFS.rename. rewrite Hd. simpl.
    apply lookup_delete_eq.
  - intros newPath Hn. unfold MemoryFS.rename. by rewrite Hn.
Qed.

Lemma rename_same_path_removes_witness :
  let self := MemoryFS.writeFile byte_codec MemoryFS.create (JStr "/a.txt")
                (DataBytes ["1"%byte]) in
  MemoryFS.readFile byte_codec self (JStr "/a.txt") None
    = Returns (AsBuffer ["1"%byte])
  /\ MemoryFS.files (MemoryFS.rename self "/a.txt" "/a.txt") !! "/a.txt" = None.
Proof.
  intros self. split; [by vm_compute |].
  destruct (rename_same_path_removes self "/a.txt") as [H _].
  apply H. vm_compute. by eexists.
Defined.

(** ** More on ingestion *)

Module IngestionMore.
Import Path PathFacts PathMore MemoryFSFacts.

(** The keys that the loop of [loadFilesIntoFs] stores for [files]. *)
Lemma loaded_paths_cons first rest :
  loaded_paths (first :: rest) =
    flat_map (fun file =>
      match upload_path (root_prefix first) file with
      | Some path => [collapse_slashes path]
      | None => []
      end) (first :: rest).
Proof. reflexivity. Qed.

Lemma upload_path_absolute rootPrefix file path :
  upload_path rootPrefix file = Some path -> starts_with "/" path = true.
Proof.
  unfold upload_path. destruct (_ || _); [done |].
  destruct (starts_with "/" _) eqn:E; by intros [= <-].
Qed.

Section WithCodec.

Context (codec : TextCodec).

Lemma load_file_other rootPrefix self file k :
  (forall path, upload_path rootPrefix file = Some path -> collapse_slashes path <> k) ->
  MemoryFS.files (load_file codec rootPrefix self file) !! k = MemoryFS.files self !! k.
Proof.
  intros H. unfold load_file. destruct (upload_path rootPrefix file) as [path|]; [|done].
  rewrite files_writeFile by done. apply lookup_insert_ne. by apply H.
Qed.

Lemma load_files_other rootPrefix files self k :
  ~ In k (flat_map (fun file =>
            match upload_path rootPrefix file with
            | Some path => [collapse_slashes path]
            | None => []
            end) files) ->
  MemoryFS.files (fold_left (load_file codec rootPrefix) files self) !! k
    = MemoryFS.files self !! k.
Proof.
  revert self. induction files as [|f files IH]; intros self Hk; [done |].
  simpl in Hk. rewrite in_app_iff in Hk. simpl fold_left.
  rewrite IH by tauto. apply load_file_other.
  intros path Hp E. apply Hk. left. rewrite Hp. by left.
Qed.

Lemma load_files_lookup rootPrefix files self file path :
  NoDup (flat_map (fun file =>
           match upload_path rootPrefix file with
           | Some path => [collapse_slashes path]
           | None => []
           end) files) ->
  In file files ->
  upload_path rootPrefix file = Some path ->
  MemoryFS.files (fold_left (load_file codec rootPrefix) files self)
    !! collapse_slashes path = Some (arrayBuffer file).
Proof.
  revert self. induction files as [|f files IH]; intros self Hnd Hin Hp; [done |].
  simpl in Hnd. apply NoDup_app in Hnd as (Hhead & Hdisj & Htail).
  simpl fold_left. destruct Hin as [->|Hin].
  - rewrite load_files_other.
    + unfold load_file. rewrite Hp, files_writeFile by done. apply lookup_insert_eq.
    + intros Hk. apply (Hdisj (collapse_slashes path)).
      * rewrite Hp. by apply list_elem_of_singleton.
      * by apply list_elem_of_In.
  - by apply IH.
Qed.

End WithCodec.

End IngestionMore.

Import IngestionMore.

(** X14.  Every key stored by loading a non-empty list of files is an
    absolute path without duplicate slashes. *)
Theorem loaded_keys_are_absolute (codec : TextCodec) (files : list File)
    (s : session) (k : string) :
  files <> [] ->
  is_Some (MemoryFS.files (fs (loadFilesIntoFs codec files s)) !! k) ->
  starts_with "/" k = true /\ has_double_slash k = false.
Proof.
  intros Hne Hk. destruct files as [|first rest]; [done |].
  assert (Hsome : is_Some
            (MemoryFS.files
               (fold_left (load_file codec (root_prefix first)) (first :: rest)
                  (MemoryFS.clear (fs s))) !! k)) by exact Hk.
  apply keys_load_files in Hsome as [[? Hc]|(file & path & _ & Hp & ->)].
  - simpl in Hc. by rewrite lookup_empty in Hc.
  - split; [|apply collapse_no_double_slash].
    rewrite collapse_starts_with_slash. by eapply upload_path_absolute.
Qed.

Lemma loaded_keys_are_absolute_witness :
  starts_with "/" "/src/a.js" = true /\ has_double_slash "/src/a.js" = false.
Proof.
  apply (loaded_keys_are_absolute byte_codec
           [ {| webkitRelativePath := "repo/src/a.js"; arrayBuffer := [] |} ]
           initial_session "/src/a.js"); [done |].
  vm_compute. by eexists.
Defined.

(** X15.  When the files of an upload are stored under pairwise different
    keys, loading them makes each one readable, with its own bytes, under
    the path computed for it. *)
Theorem loaded_file_is_readable (codec : TextCodec) (first : File)
    (rest : list File) (s : session) (file : File) (path : string) :
  NoDup (loaded_paths (first :: rest)) ->
  In file (first :: rest) ->
  upload_path (root_prefix first) file = Some path ->
  MemoryFS.readFile codec (fs (loadFilesIntoFs codec (first :: rest) s))
    (JStr path) None
  = Returns (AsBuffer (arrayBuffer file)).
Proof.
  intros Hnd Hin Hp. apply readFile_found; [done |]. simpl to_String.
  change (MemoryFS.files (fs (loadFilesIntoFs codec (first :: rest) s)))
    with (MemoryFS.files
            (fold_left (load_file codec (root_prefix first)) (first :: rest)
               (MemoryFS.clear (fs s)))).
  apply load_files_lookup; [|done | done].
  by rewrite <- loaded_paths_cons.
Qed.

Lemma loaded_file_is_readable_witness :
  let files := [ {| webkitRelativePath := "repo/.git/HEAD"; arrayBuffer := ["1"%byte] |};
                 {| webkitRelativePath := "repo/src/a.js"; arrayBuffer := ["2"%byte] |} ] in
  MemoryFS.readFile byte_codec (fs (loadFilesIntoFs byte_codec files initial_session))
    (JStr "/src/a.js") None
  = Returns (AsBuffer ["2"%byte]).
Proof.
  intros files.
  apply (loaded_file_is_readable byte_codec
           {| webkitRelativePath := "repo/.git/HEAD"; arrayBuffer := ["1"%byte] |}
           [ {| webkitRelativePath := "repo/src/a.js"; arrayBuffer := ["2"%byte] |} ]
           initial_session
           {| webkitRelativePath := "repo/src/a.js"; arrayBuffer := ["2"%byte] |}).
  - apply (bool_decide_unpack _). by vm_compute.
  - right. by left.
  - reflexivity.
Defined.

(** X16.  The folder name in front of the first slash of the first file is
    the root prefix, and a file named [root/rel], with [rel] not empty, is
    stored under [/rel]. *)
Theorem upload_strips_root (root rel0 rel : string) (first file : File) :
  has_slash root = false ->
  webkitRelativePath first = root ++ "/" ++ rel0 ->
  webkitRelativePath file = root ++ "/" ++ rel ->
  rel <> "" ->
  root_prefix first = root
  /\ upload_path (root_prefix first) file = Some ("/" ++ rel).
Proof.
  intros Hroot Hfirst Hfile Hrel.
  assert (Hr : root_prefix first = root).
  { unfold root_prefix. by rewrite Hfirst, (split_slash_piece_slash _ _ Hroot). }
  split; [done |]. rewrite Hr. unfold upload_path.
  rewrite Hfile, substring_from_app.
  destruct rel as [|c rel']; [done |]. reflexivity.
Qed.

Lemma upload_strips_root_witness :
  upload_path
    (root_prefix {| webkitRelativePath := "repo/.git/HEAD"; arrayBuffer := [] |})
    {| webkitRelativePath := "repo/src/a.js"; arrayBuffer := [] |}
  = Some "/src/a.js".
Proof.
  by destruct (upload_strips_root "repo" ".git/HEAD" "src/a.js"
                 {| webkitRelativePath := "repo/.git/HEAD"; arrayBuffer := [] |}
                 {| webkitRelativePath := "repo/src/a.js"; arrayBuffer := [] |}
                 eq_refl eq_refl eq_refl ltac:(done)) as [_ H].
Defined.

(** ** More on the tree walker and the diff orchestrator *)

Module DiffMore.
Import DiffFacts.

(** *** Objects *)

Lemma get_set_own_eq k v o : JsObject.get k (JsObject.set_own k v o) = Some v.
Proof.
  induction o as [|[k' v'] rest IH]; simpl.
  - by rewrite String.eqb_refl.
  - destruct (String.eqb k k') eqn:E; simpl; rewrite ?String.eqb_refl, ?E; done.
Qed.

Lemma get_set_own_ne k k' v o :
  k <> k' -> JsObject.get k' (JsObject.set_own k v o) = JsObject.get k' o.
Proof.
  intros Hne. induction o as [|[k0 v0] rest IH]; simpl.
  - apply String.eqb_neq in Hne. by rewrite String.eqb_sym, Hne.
  - destruct (String.eqb k k0) eqn:E; simpl.
    + apply String.eqb_eq in E as <-.
      apply String.eqb_neq in Hne. by rewrite String.eqb_sym, Hne.
    + by rewrite IH.
Qed.

Lemma in_own_keys_set_own x k v o :
  In x (map fst (JsObject.set_own k v o)) <-> In x (map fst o) \/ x = k.
Proof.
  induction o as [|[k0 v0] rest IH]; simpl.
  - split; [intros [?|[]]; auto | intros [[]|?]; auto].
  - destruct (String.eqb k k0) eqn:E; simpl.
    + apply String.eqb_eq in E as <-. split; [tauto |]. intros [?|?]; auto.
    + rewrite IH. tauto.
Qed.

Lemma NoDup_own_keys_set_own k v o :
  NoDup (map fst o) -> NoDup (map fst (JsObject.set_own k v o)).
Proof.
  induction o as [|[k0 v0] rest IH]; simpl; intros Hnd.
  - apply NoDup_singleton.
  - destruct (String.eqb k k0) eqn:E; simpl.
    + by apply String.eqb_eq in E as <-.
    + apply NoDup_cons in Hnd as [Hnotin Hrest]. apply NoDup_cons. split; [|auto].
      rewrite list_elem_of_In, in_own_keys_set_own. intros [Hin| ->].
      * by apply Hnotin, list_elem_of_In.
      * by rewrite String.eqb_refl in E.
Qed.

(** An assignment stores the value, except for the name [__proto__]. *)
Lemma get_set_eq k v o :
  k <> "__proto__" -> JsObject.get k (JsObject.set k v o) = Some v.
Proof.
  intros Hk. unfold JsObject.set. apply String.eqb_neq in Hk. rewrite Hk. simpl.
  apply get_set_own_eq.
Qed.

Lemma get_set_ne k k' v o :
  k <> k' -> JsObject.get k' (JsObject.set k v o) = JsObject.get k' o.
Proof.
  intros Hne. unfold JsObject.set. destruct (_ && _); [done |].
  by apply get_set_own_ne.
Qed.

Lemma in_own_keys_set x k v o :
  In x (map fst (JsObject.set k v o)) <->
  In x (map fst o) \/ (x = k /\ k <> "__proto__").
Proof.
  unfold JsObject.set. destruct (String.eqb_spec k "__proto__") as [->|Hk]; simpl.
  - case_bool_decide as Hown; simpl.
    + rewrite in_own_keys_set_own. split; [|tauto].
      intros [?|Hx]; [by left |]. left. rewrite Hx. by apply get_is_key.
    + tauto.
  - rewrite in_own_keys_set_own. tauto.
Qed.

Lemma NoDup_own_keys_set k v o :
  NoDup (map fst o) -> NoDup (map fst (JsObject.set k v o)).
Proof.
  intros Hnd. unfold JsObject.set. destruct (_ && _); [done |].
  by apply NoDup_own_keys_set_own.
Qed.

Lemma set_all_app kvs kvs' o :
  set_all (kvs ++ kvs') o = set_all kvs' (set_all kvs o).
Proof. apply fold_left_app. Qed.

Lemma in_own_keys_set_all x kvs o :
  In x (map fst (set_all kvs o)) <->
  In x (map fst o) \/ (In x (map fst kvs) /\ x <> "__proto__").
Proof.
  revert o. induction kvs as [|[k v] kvs IH]; intros o; simpl.
  - tauto.
  - change (set_all ((k, v) :: kvs) o) with (set_all kvs (JsObject.set k v o)).
    rewrite IH, in_own_keys_set. split.
    + intros [[?|[-> ?]]|[? ?]]; auto.
    + intros [?|[[<-|?] ?]]; auto.
Qed.

Lemma NoDup_own_keys_set_all kvs o :
  NoDup (map fst o) -> NoDup (map fst (set_all kvs o)).
Proof.
  revert o. induction kvs as [|[k v] kvs IH]; intros o Hnd; [done |].
  apply (IH (JsObject.set k v o)). by apply NoDup_own_keys_set.
Qed.

Lemma get_set_all_other k kvs o :
  ~ In k (map fst kvs) -> JsObject.get k (set_all kvs o) = JsObject.get k o.
Proof.
  revert o. induction kvs as [|[k0 v0] kvs IH]; intros o Hk; [done |].
  simpl in Hk. change (set_all ((k0, v0) :: kvs) o) with (set_all kvs (JsObject.set k0 v0 o)).
  rewrite IH by tauto. apply get_set_ne. tauto.
Qed.

Lemma get_set_all_nodup k v kvs o :
  NoDup (map fst kvs) -> In (k, v) kvs -> k <> "__proto__" ->
  JsObject.get k (set_all kvs o) = Some v.
Proof.
  revert o. induction kvs as [|[k0 v0] kvs IH]; intros o Hnd Hin Hk; [done |].
  simpl in Hnd. apply NoDup_cons in Hnd as [Hnotin Hrest].
  change (set_all ((k0, v0) :: kvs) o) with (set_all kvs (JsObject.set k0 v0 o)).
  destruct Hin as [[= -> ->]|Hin].
  - rewrite get_set_all_other; [by apply get_set_eq |].
    intros H. by apply Hnotin, list_elem_of_In.
  - by apply IH.
Qed.

(** *** The walk of a readable tree *)

Lemma walked_nil st : walked [] [] st = st.
Proof. destruct st. unfold walked. simpl. by rewrite app_nil_r. Qed.

Lemma walked_walked b1 r1 b2 r2 st :
  walked b2 r2 (walked b1 r1 st) = walked (b1 ++ b2) (r1 ++ r2) st.
Proof. unfold walked. simpl. by rewrite set_all_app, app_assoc. Qed.

Lemma for_of_readable entries :
  Forall (fun entry => forall prefix st, entry_unreadable entry = false ->
            walk_entry prefix entry st
              = (walked (entry_blobs prefix entry) (entry_reads entry) st,
                 Returns tt)) entries ->
  existsb entry_unreadable entries = false ->
  forall prefix st,
    for_of (walk_entry prefix) entries st
      = (walked (flat_map (entry_blobs prefix) entries)
           (flat_map entry_reads entries) st, Returns tt).
Proof.
  induction 1 as [|entry rest Hentry Hrest IH]; intros Hex prefix st.
  - simpl. by rewrite walked_nil.
  - simpl in Hex. apply orb_false_iff in Hex as [He Hr].
    simpl for_of. rewrite (Hentry prefix st He), (IH Hr). simpl flat_map.
    by rewrite walked_walked.
Qed.

Lemma walk_entry_readable entry :
  forall prefix st, entry_unreadable entry = false ->
  walk_entry prefix entry st
    = (walked (entry_blobs prefix entry) (entry_reads entry) st, Returns tt).
Proof.
  induction entry as [path oid | path oid | path oid e | path oid entries IH]
    using tree_entry_nested_ind; intros prefix st Hun.
  - destruct st. unfold walked. simpl. by rewrite app_nil_r.
  - simpl. by rewrite walked_nil.
  - done.
  - rewrite walk_entry_tree, (for_of_readable _ IH Hun).
    simpl entry_blobs. simpl entry_reads. unfold walked, log_read_tree. simpl.
    by rewrite <- app_assoc.
Qed.

Section WithReader.

Context (codec : TextCodec) (git : GitReader) (differ : TextDiffer).

Lemma listTreeFiles_readable oid entries :
  readTree git oid = Returns entries ->
  existsb entry_unreadable entries = false ->
  listTreeFiles git oid
    = (ReadTree oid :: flat_map entry_reads entries,
       Returns (set_all (flat_map (entry_blobs "") entries) [])).
Proof.
  intros Hread Hun. unfold listTreeFiles, walkTree. rewrite Hread.
  rewrite for_of_readable; [done | | done].
  apply Forall_forall. intros entry _ prefix st. apply walk_entry_readable.
Qed.

Lemma tree_files_or_empty_returns oid :
  exists log fm, tree_files_or_empty git oid = (log, Returns fm).
Proof.
  unfold tree_files_or_empty.
  destruct (listTreeFiles git oid) as [log [fm|e]]; simpl; by eexists _, _.
Qed.

(** The names of the entries pushed for pairwise different paths are
    pairwise different. *)
Lemma NoDup_pushed baseBranch compareBranch baseFiles compareFiles paths :
  NoDup paths ->
  NoDup (map filename
           (omap (pushed_entry codec git differ baseBranch compareBranch
                    baseFiles compareFiles) paths)).
Proof.
  induction 1 as [|p paths Hnotin Hnd IH]; [constructor |].
  simpl omap.
  destruct (pushed_entry codec git differ baseBranch compareBranch baseFiles
              compareFiles p) as [r|] eqn:Hp; [|done].
  simpl. apply NoDup_cons. split; [|done].
  pose proof (pushed_entry_inv codec git differ _ _ _ _ _ _ Hp) as (_ & Hfile & _).
  rewrite Hfile. intros Hin. apply Hnotin.
  apply list_elem_of_fmap in Hin as (r' & Hname & Hr').
  apply list_elem_of_omap in Hr' as (p' & Hp'in & Hp').
  pose proof (pushed_entry_inv codec git differ _ _ _ _ _ _ Hp') as (_ & Hfile' & _).
  congruence.
Qed.

(** What [generateDiff] returns is empty or the result of reconciling two
    file maps. *)
Lemma generateDiff_returns_inv baseBranch compareBranch results :
  snd (generateDiff codec git differ baseBranch compareBranch) = Returns results ->
  results = [] \/
  exists baseFiles compareFiles,
    results = omap (pushed_entry codec git differ baseBranch compareBranch
                      baseFiles compareFiles) (allPaths baseFiles compareFiles).
Proof.
  unfold generateDiff.
  destruct (negb (truthy baseBranch) || negb (truthy compareBranch)).
  { simpl. intros [= <-]. by left. }
  unfold call.
  destruct (resolveRef git baseBranch) as [bc|e]; [|done].
  rewrite snd_bind_returns.
  destruct (resolveRef git compareBranch) as [cc|e]; [|done].
  rewrite snd_bind_returns.
  destruct (String.eqb bc cc).
  { simpl. intros [= <-]. by left. }
  destruct (readCommit git bc) as [bo|e]; [|done].
  rewrite snd_bind_returns.
  destruct (readCommit git cc) as [co|e]; [|done].
  rewrite snd_bind_returns.
  destruct (tree_files_or_empty_returns (tree bo)) as (l1 & bf & ->).
  rewrite snd_bind_returns.
  destruct (tree_files_or_empty_returns (tree co)) as (l2 & cf & ->).
  rewrite snd_bind_returns.
  unfold reconcile. intros Hres. apply diff_paths_returns in Hres as ->.
  right. by exists bf, cf.
Qed.



(** An error thrown by the loop is one thrown by the differ. *)
Lemma diff_path_throws baseBranch compareBranch baseFiles compareFiles filepath e :
  snd (diff_path codec git differ baseBranch compareBranch baseFiles compareFiles
         filepath) = Throws e ->
  (exists baseText compareText,
     createPatch differ filepath baseText compareText baseBranch compareBranch
       = Throws e)
  \/ (exists patch, parsePatch differ patch = Throws e).
Proof.
  unfold diff_path.
  destruct (strict_eq _ _); [done |].
  destruct (fetch_text_returns codec git
              (oid_or_null (JsObject.lookup filepath baseFiles))) as (l1 & r1 & ->).
  rewrite snd_bind_returns.
  destruct r1 as [baseText|]; [|done].
  destruct (fetch_text_returns codec git
              (oid_or_null (JsObject.lookup filepath compareFiles))) as (l2 & r2 & ->).
  rewrite snd_bind_returns.
  destruct r2 as [compareText|]; [|done].
  destruct (isBinary baseText || isBinary compareText); [done |].
  unfold differ_call.
  destruct (createPatch differ _ _ _ _ _) as [patch|e1] eqn:Hc.
  2: { simpl. intros [= ->]. left. by exists baseText, compareText. }
  rewrite snd_bind_returns.
  destruct (parsePatch differ patch) as [parsed|e1] eqn:Hp.
  2: { simpl. intros [= ->]. right. by exists patch. }
  rewrite snd_bind_returns.
  by destruct parsed as [|[|h hs] ?].
Qed.

Lemma diff_paths_throws baseBranch compareBranch baseFiles compareFiles paths acc e :
  snd (diff_paths codec git differ baseBranch compareBranch baseFiles
         compareFiles paths acc) = Throws e ->
  (exists filepath baseText compareText,
     createPatch differ filepath baseText compareText baseBranch compareBranch
       = Throws e)
  \/ (exists patch, parsePatch differ patch = Throws e).
Proof.
  revert acc. induction paths as [|filepath rest IH]; intros acc; [done |].
  simpl diff_paths.
  destruct (diff_path codec git differ baseBranch compareBranch baseFiles
              compareFiles filepath) as [log [r|e1]] eqn:E.
  - rewrite snd_bind_returns. apply IH.
  - simpl. intros [= ->].
    destruct (diff_path_throws baseBranch compareBranch baseFiles compareFiles
                filepath e) as [(a & b & H)|H]; [by rewrite E | |by right].
    left. by exists filepath, a, b.
Qed.

End WithReader.

End DiffMore.

Import DiffMore.

(** X17.  For a tree all of whose reachable sub-trees can be read,
    [listTreeFiles] returns the object obtained by the assignments
    [fileMap[fullPath] = oid] for every blob, in walk order (so a blob
    whose full path is [__proto__] leaves no property), and it reads the
    root tree and then each sub-tree once, before the entries of that
    sub-tree. *)
Theorem listTreeFiles_of_readable_tree (git : GitReader) (treeOid : string) :
  tree_unreadable (readTree git treeOid) = false ->
  exists entries,
    readTree git treeOid = Returns entries
    /\ listTreeFiles git treeOid
       = (ReadTree treeOid :: flat_map entry_reads entries,
          Returns (set_all (flat_map (entry_blobs "") entries) [])).
Proof.
  unfold tree_unreadable. destruct (readTree git treeOid) as [entries|e] eqn:Hread;
    [|done].
  intros Hun. exists entries. split; [done |]. by apply listTreeFiles_readable.
Qed.

Lemma listTreeFiles_of_readable_tree_witness :
  listTreeFiles sample_git "t2"
    = ([ReadTree "t2"; ReadTree "t4"],
       Returns [("foo.txt", "hello1"); ("bar.txt", "world1");
                ("img/dot.png", "nul1")]).
Proof.
  destruct (listTreeFiles_of_readable_tree sample_git "t2" eq_refl)
    as (entries & Hread & ->).
  injection Hread as <-. reflexivity.
Defined.

(** X18.  [listTreeFiles] throws exactly when some tree that the walk
    reaches cannot be read. *)
Theorem listTreeFiles_throws_iff (git : GitReader) (treeOid : string) :
  (exists e, snd (listTreeFiles git treeOid) = Throws e)
  <-> tree_unreadable (readTree git treeOid) = true.
Proof.
  split.
  - intros [e He]. destruct (tree_unreadable (readTree git treeOid)) eqn:Hun; [done |].
    unfold tree_unreadable in Hun.
    destruct (readTree git treeOid) as [entries|e'] eqn:Hread; [|done].
    by rewrite (listTreeFiles_readable git _ _ Hread Hun) in He.
  - intros Hun. destruct (listTreeFiles_throws git _ Hun) as (log & e & ->).
    by exists e.
Qed.

(** X19.  In the object that [listTreeFiles] returns for a readable tree,
    [Object.keys] lists no key twice, and a path is a key exactly when
    some blob of the tree has it as its full path and it is not
    [__proto__]; when the full paths of the blobs are pairwise different,
    each of them other than [__proto__] is mapped to the id of its
    blob. *)
Theorem listTreeFiles_index (git : GitReader) (treeOid : string)
    (entries : list tree_entry) (log : list git_event) (index : JsObject.t) :
  readTree git treeOid = Returns entries ->
  listTreeFiles git treeOid = (log, Returns index) ->
  let blobs := flat_map (entry_blobs "") entries in
  NoDup (JsObject.keys index)
  /\ (forall path, In path (JsObject.keys index) <->
                   In path (map fst blobs) /\ path <> "__proto__")
  /\ (NoDup (map fst blobs) ->
      forall path oid, In (path, oid) blobs -> path <> "__proto__" ->
      JsObject.get path index = Some oid).
Proof.
  intros Hread Hlist blobs.
  assert (Hun : existsb entry_unreadable entries = false).
  { destruct (existsb entry_unreadable entries) eqn:E; [|done].
    assert (Ht : tree_unreadable (readTree git treeOid) = true)
      by (by rewrite Hread).
    destruct (listTreeFiles_throws git _ Ht) as (l & e & Hthrow). congruence. }
  rewrite (listTreeFiles_readable git _ _ Hread Hun) in Hlist.
  injection Hlist as _ <-. fold blobs.
  split; [|split].
  - rewrite keys_Permutation. apply NoDup_own_keys_set_all. constructor.
  - intros path. rewrite in_keys, get_is_key, in_own_keys_set_all. simpl. tauto.
  - intros Hnd path oid Hin Hp. by apply get_set_all_nodup.
Qed.

Lemma listTreeFiles_index_witness :
  JsObject.get "img/dot.png"
    [("foo.txt", "hello1"); ("bar.txt", "world1"); ("img/dot.png", "nul1")]
  = Some "nul1".
Proof.
  assert (Hp : "img/dot.png" <> "__proto__") by done.
  destruct (listTreeFiles_index sample_git "t2" _
              [ReadTree "t2"; ReadTree "t4"]
              [("foo.txt", "hello1"); ("bar.txt", "world1"); ("img/dot.png", "nul1")]
              eq_refl eq_refl)
    as (_ & _ & Hget).
  apply Hget; [|vm_compute; auto | done].
  apply (bool_decide_unpack _). by vm_compute.
Defined.



(** X21.  When [generateDiff] throws, the error is the one thrown by the
    resolution of one of the two refs, by the read of one of the two
    commits, or by a call to the differ ([createPatch] or [parsePatch])
    for some path: a tree or a blob that cannot be read is never the
    cause. *)
Theorem generateDiff_throws_origin (codec : TextCodec) (git : GitReader)
    (differ : TextDiffer) (baseBranch compareBranch : jsval) (e : git_error) :
  snd (generateDiff codec git differ baseBranch compareBranch) = Throws e ->
  resolveRef git baseBranch = Throws e
  \/ resolveRef git compareBranch = Throws e
  \/ (exists commit, resolveRef git baseBranch = Returns commit
                     /\ readCommit git commit = Throws e)
  \/ (exists commit, resolveRef git compareBranch = Returns commit
                     /\ readCommit git commit = Throws e)
  \/ (exists filepath baseText compareText,
        createPatch differ filepath baseText compareText baseBranch compareBranch
          = Throws e)
  \/ (exists patch, parsePatch differ patch = Throws e).
Proof.
  unfold generateDiff.
  destruct (negb (truthy baseBranch) || negb (truthy compareBranch)); [done |].
  unfold call.
  destruct (resolveRef git baseBranch) as [bc|e1]; [|simpl; intros [= ->]; auto].
  rewrite snd_bind_returns.
  destruct (resolveRef git compareBranch) as [cc|e1]; [|simpl; intros [= ->]; auto].
  rewrite snd_bind_returns.
  destruct (String.eqb bc cc); [done |].
  destruct (readCommit git bc) as [bo|e1] eqn:Hb.
  2: { simpl. intros [= ->]. right; right; left. by exists bc. }
  rewrite snd_bind_returns.
  destruct (readCommit git cc) as [co|e1] eqn:Hc.
  2: { simpl. intros [= ->]. right; right; right; left. by exists cc. }
  rewrite snd_bind_returns.
  destruct (tree_files_or_empty_returns git (tree bo)) as (l1 & bf & ->).
  rewrite snd_bind_returns.
  destruct (tree_files_or_empty_returns git (tree co)) as (l2 & cf & ->).
  rewrite snd_bind_returns.
  unfold reconcile. intros Hthrow.
  apply diff_paths_throws in Hthrow as [H|H]; auto 10.
Qed.

Lemma generateDiff_throws_origin_witness :
  resolveRef sample_git (JStr "nope") = Throws "NotFoundError".
Proof.
  destruct (generateDiff_throws_origin byte_codec sample_git sample_differ
              (JStr "main") (JStr "nope") "NotFoundError" eq_refl)
    as [H|[H|[(c & H & _)|[(c & H & _)|[(f & a & b & H)|(q & H)]]]]]; try done.
Defined.

(** X22.  In what [generateDiff] returns no file name occurs twice and
    every entry has at least one hunk. *)
Theorem generateDiff_result_shape (codec : TextCodec) (git : GitReader)
    (differ : TextDiffer) (baseBranch compareBranch : jsval)
    (results : list FileDiffResult) :
  snd (generateDiff codec git differ baseBranch compareBranch) = Returns results ->
  NoDup (map filename results)
  /\ forall r, In r results -> hunks r <> [].
Proof.
  intros Hres.
  apply generateDiff_returns_inv in Hres as [->|(bf & cf & ->)].
  { split; [constructor | done]. }
  split.
  - apply NoDup_pushed. apply NoDup_set_of_list.
  - intros r Hr. apply list_elem_of_In, list_elem_of_omap in Hr as (p & _ & Hp).
    by pose proof (pushed_entry_inv codec git differ _ _ _ _ _ _ Hp) as (_ & _ & _ & ?).
Qed.

Lemma generateDiff_result_shape_witness :
  NoDup (map filename
           [ {| filename := "bar.txt"; status := added;
                hunks := [ {| header := "@@ -1 +1 @@"; lines := ["-+world"] |} ] |} ]).
Proof.
  by destruct (generateDiff_result_shape byte_codec sample_git sample_differ
                 (JStr "main") (JStr "dev") _ eq_refl) as [H _].
Defined.

(** X23.  When the blob of a path cannot be read on the base side or on
    the compare side, the loop of [generateDiff] pushes nothing for that
    path and goes on: the result has no entry with its name. *)
Theorem unreadable_blob_skips_path (codec : TextCodec) (git : GitReader)
    (differ : TextDiffer) (baseBranch compareBranch : jsval)
    (baseFiles compareFiles : JsObject.t) (p oid : string) (e : git_error) :
  JsObject.get p baseFiles = Some oid \/ JsObject.get p compareFiles = Some oid ->
  truthy_string oid = true ->
  readBlob git oid = Throws e ->
  snd (diff_path codec git differ baseBranch compareBranch baseFiles
         compareFiles p) = Returns None
  /\ forall results,
       snd (reconcile codec git differ baseBranch compareBranch baseFiles
              compareFiles) = Returns results ->
       forall r, In r results -> filename r <> p.
Proof.
  intros Hside Hoid Hblob.
  assert (Hfetch : fetch_text codec git (Some (JsObject.Own oid))
                   = ([ReadBlob oid], Returns None))
    by by apply (fetch_text_throws codec git oid e).
  assert (Hnone : snd (diff_path codec git differ baseBranch compareBranch
                         baseFiles compareFiles p) = Returns None).
  { unfold diff_path. destruct (strict_eq _ _); [done |].
    destruct Hside as [Hget|Hget]; rewrite (lookup_own _ _ _ Hget);
      simpl oid_or_null; rewrite Hoid.
    - by rewrite Hfetch, snd_bind_returns.
    - destruct (fetch_text_returns codec git
                  (oid_or_null (JsObject.lookup p baseFiles))) as (l & r & ->).
      rewrite snd_bind_returns. destruct r as [baseText|]; [|done].
      by rewrite Hfetch, snd_bind_returns. }
  split; [done |]. intros results Hres.
  apply (no_entry_named codec git differ baseBranch compareBranch baseFiles
           compareFiles p results); [|done].
  unfold pushed_entry. by rewrite Hnone.
Qed.

Lemma unreadable_blob_skips_path_witness :
  snd (reconcile byte_codec sample_git sample_differ (JStr "main") (JStr "dev")
         [("foo.txt", "hello1")]
         [("foo.txt", "hello1"); ("gone.txt", "missing1"); ("bar.txt", "world1")])
  = Returns [ {| filename := "bar.txt"; status := added;
                 hunks := [ {| header := "@@ -1 +1 @@"; lines := ["-+world"] |} ] |} ]
  /\ snd (diff_path byte_codec sample_git sample_differ (JStr "main") (JStr "dev")
            [("foo.txt", "hello1")]
            [("foo.txt", "hello1"); ("gone.txt", "missing1"); ("bar.txt", "world1")]
            "gone.txt") = Returns None.
Proof.
  split; [by vm_compute |].
  by destruct (unreadable_blob_skips_path byte_codec sample_git sample_differ
                 (JStr "main") (JStr "dev") [("foo.txt", "hello1")]
                 [("foo.txt", "hello1"); ("gone.txt", "missing1"); ("bar.txt", "world1")]
                 "gone.txt" "missing1" "NotFoundError"
                 (or_intror eq_refl) eq_refl eq_refl) as [H _].
Defined.

(** X24.  After an upload that lists at least one branch, the base
    branch that is preselected is [main] if it is listed, else [master]
    if it is listed, else the first branch of the list, so that it is
    always one of the listed branches; the compare branch is the first
    one; nothing is preselected for an empty list. *)
Theorem default_branches_listed (gitBranches : list string) :
  match default_branches gitBranches with
  | None => gitBranches = []
  | Some (base, compare) =>
      In base gitBranches
      /\ hd_error gitBranches = Some compare
      /\ (In "main" gitBranches -> base = "main")
      /\ (~ In "main" gitBranches -> In "master" gitBranches -> base = "master")
      /\ (~ In "main" gitBranches -> ~ In "master" gitBranches ->
          hd_error gitBranches = Some base)
  end.
Proof.
  destruct gitBranches as [|first rest]; [done |].
  unfold default_branches, includes.
  destruct (existsb (String.eqb "main") (first :: rest)) eqn:Emain.
  - apply in_existsb_eqb in Emain. by repeat split.
  - assert (Hmain : ~ In "main" (first :: rest)).
    { intros H. apply in_existsb_eqb in H. congruence. }
    destruct (existsb (String.eqb "master") (first :: rest)) eqn:Emaster.
    + apply in_existsb_eqb in Emaster. by repeat split.
    + split; [by left |]. split; [done |].
      split; [intros H; apply in_existsb_eqb in H; congruence |].
      split; [|done].
      intros _ H. apply in_existsb_eqb in H. congruence.
Qed.

(** X25.  What [generateDiff] does for a changed path whose name is not
    that of a member of [Object.prototype], when both trees are walked to
    indexes with non-empty ids: if the ids of the path differ on the two
    sides (an absent side counting as no id), both texts are fetched and
    free of NUL, and the differ gives a first patch with at least one
    hunk, then the result has the entry of that path with those hunks and
    with the status [added] when the path is absent from the base index,
    [deleted] when it is absent from the compare index, [modified] when
    it is in both. *)
Theorem generateDiff_emits_changed_path (codec : TextCodec) (git : GitReader)
    (differ : TextDiffer) (baseBranch compareBranch : jsval)
    (baseCommit compareCommit : string)
    (baseCommitObj compareCommitObj : commit_object)
    (baseLog compareLog : list git_event) (baseFiles compareFiles : JsObject.t)
    (p baseText compareText patch : string) (hunk : Hunk) (more : list Hunk)
    (others : list (list Hunk)) (results : list FileDiffResult) :
  truthy baseBranch = true -> truthy compareBranch = true ->
  resolveRef git baseBranch = Returns baseCommit ->
  resolveRef git compareBranch = Returns compareCommit ->
  baseCommit <> compareCommit ->
  readCommit git baseCommit = Returns baseCommitObj ->
  readCommit git compareCommit = Returns compareCommitObj ->
  listTreeFiles git (tree baseCommitObj) = (baseLog, Returns baseFiles) ->
  listTreeFiles git (tree compareCommitObj) = (compareLog, Returns compareFiles) ->
  oids_present baseFiles -> oids_present compareFiles ->
  JsObject.inherited p = false ->
  JsObject.get p baseFiles <> JsObject.get p compareFiles ->
  side_text codec git (JsObject.get p baseFiles) = Some baseText ->
  side_text codec git (JsObject.get p compareFiles) = Some compareText ->
  isBinary baseText = false -> isBinary compareText = false ->
  createPatch differ p baseText compareText baseBranch compareBranch
    = Returns patch ->
  parsePatch differ patch = Returns ((hunk :: more) :: others) ->
  snd (generateDiff codec git differ baseBranch compareBranch) = Returns results ->
  In {| filename := p;
        status := expected_status (JsObject.get p baseFiles)
                    (JsObject.get p compareFiles);
        hunks := hunk :: more |} results.
Proof.
  intros Hb Hc Hrb Hrc Hne Hcb Hcc Hbase Hcompare Hpb Hpc Hplain Hdiff
    Htb Htc Hbb Hbc Hcreate Hparse Hres.
  rewrite (generateDiff_after_commits codec git differ _ _ _ _ _ _
             Hb Hc Hrb Hrc Hne Hcb Hcc) in Hres.
  unfold tree_files_or_empty in Hres. rewrite Hbase, Hcompare in Hres.
  simpl try_catch in Hres. rewrite !snd_bind_returns in Hres.
  unfold reconcile in Hres. apply diff_paths_returns in Hres as ->. simpl app.
  apply list_elem_of_In, list_elem_of_omap. exists p. split.
  { apply list_elem_of_In. unfold allPaths.
    rewrite in_set_of_list, in_app_iff, !in_keys.
    destruct (JsObject.get p baseFiles), (JsObject.get p compareFiles);
      try done; [left | left | right]; by eexists. }
  assert (Hfetch : forall index, oids_present index -> forall text,
            side_text codec git (JsObject.get p index) = Some text ->
            exists log, fetch_text codec git (JsObject.Own <$> JsObject.get p index)
                        = (log, Returns (Some text))).
  { intros index Hp text Ht. unfold side_text in Ht.
    destruct (JsObject.get p index) as [o|] eqn:Hget; simpl.
    - rewrite (get_present _ _ _ Hp Hget). unfold call.
      destruct (readBlob git o) as [blob|e]; [|done].
      injection Ht as <-. by eexists.
    - injection Ht as <-. by eexists. }
  destruct (Hfetch baseFiles Hpb baseText Htb) as [l1 Hf1].
  destruct (Hfetch compareFiles Hpc compareText Htc) as [l2 Hf2].
  unfold pushed_entry, diff_path.
  rewrite !oid_or_null_plain by done.
  assert (Hneq : strict_eq (JsObject.Own <$> JsObject.get p baseFiles)
                   (JsObject.Own <$> JsObject.get p compareFiles) = false).
  { destruct (strict_eq _ _) eqn:E; [|done].
    apply strict_eq_true in E. exfalso. apply Hdiff.
    destruct (JsObject.get p baseFiles), (JsObject.get p compareFiles);
      simpl in E; congruence. }
  rewrite Hneq, Hf1, snd_bind_returns, Hf2, snd_bind_returns, Hbb, Hbc.
  simpl orb. cbv iota. unfold differ_call.
  rewrite Hcreate, snd_bind_returns, Hparse, snd_bind_returns. simpl.
  rewrite status_of_expected; [done | | | done].
  - intros o Ho. by apply (get_present _ _ _ Hpb Ho).
  - intros o Ho. by apply (get_present _ _ _ Hpc Ho).
Qed.

Lemma generateDiff_emits_changed_path_witness :
  In {| filename := "bar.txt"; status := added;
        hunks := [ {| header := "@@ -1 +1 @@"; lines := ["-+world"] |} ] |}
     [ {| filename := "bar.txt"; status := added;
          hunks := [ {| header := "@@ -1 +1 @@"; lines := ["-+world"] |} ] |} ].
Proof.
  assert (Hne : "c1" <> "c2") by done.
  assert (Hdiff : JsObject.get "bar.txt" [("foo.txt", "hello1")]
                  <> JsObject.get "bar.txt"
                       [("foo.txt", "hello1"); ("bar.txt", "world1");
                        ("img/dot.png", "nul1")]) by done.
  apply (generateDiff_emits_changed_path byte_codec sample_git sample_differ
           (JStr "main") (JStr "dev") "c1" "c2"
           {| tree := "t1" |} {| tree := "t2" |}
           [ReadTree "t1"] [ReadTree "t2"; ReadTree "t4"]
           [("foo.txt", "hello1")]
           [("foo.txt", "hello1"); ("bar.txt", "world1"); ("img/dot.png", "nul1")]
           "bar.txt" "" "world" "-+world"
           {| header := "@@ -1 +1 @@"; lines := ["-+world"] |} [] []
           _ eq_refl eq_refl eq_refl eq_refl Hne eq_refl eq_refl eq_refl eq_refl
           ltac:(by repeat constructor) ltac:(by repeat constructor)
           eq_refl Hdiff eq_refl eq_refl eq_refl eq_refl eq_refl eq_refl eq_refl).
Defined.
